(** * Rehydration of simplified values: [desimplifier.py] and [lazy_reference.py]

    A shallow embedding of [nova/db/discovery/desimplifier.py] (class
    [ObjectDesimplifier]) and [nova/db/discovery/lazy_reference.py] (class
    [LazyReference]), and the properties of the rehydration engine and of the
    lazy reference that the specification states about them.

    The Python code mutates three shared objects: the identity cache of an
    engine, the memo dictionary of a lazy reference, and the model objects
    themselves (through [setattr]).  They live in one explicit [State]; the
    methods are computations of a state-and-exception monad.  A raised
    exception keeps the state reached so far, as in Python. *)

From Stdlib Require Import ZArith NArith String Ascii List Lia HexString DecimalString.
From stdpp Require Import base option list gmap strings.

Open Scope string_scope.
Open Scope nat_scope.
Set Warnings "-register-all,-clear-no-such-hyp".

(** ** Values *)

(** Simplified values as the store delivers them (decoded JSON), together with
    what rehydration adds: references to model objects, datetimes and IP
    networks.  Numbers are integers and text is ASCII.  A dict is an
    association list in its iteration order, with the address Python's [id]
    gives it: [get_key] reads that address. *)
Inductive value : Type :=
| VNone
| VBool (b : bool)
| VInt (z : Z)
| VStr (s : string)
| VList (items : list value)
| VDict (ident : N) (kvs : list (string * value))
| VObj (addr : nat)
| VDatetime (stamp : Z) (utc : bool)
| VIPNetwork (cidr : string).

Abbreviation dict := (list (string * value)).

(** [obj[key]] and [obj.has_key(key)] on a dict. *)
Fixpoint dict_get (k : string) (d : dict) : option value :=
  match d with
  | [] => None
  | (k', v) :: d' => if String.eqb k k' then Some v else dict_get k d'
  end.

Definition has_key (k : string) (d : dict) : bool :=
  match dict_get k d with Some _ => true | None => false end.

(** [needle in haystack] on strings. *)
Definition str_contains (needle haystack : string) : bool :=
  match String.index 0 needle haystack with Some _ => true | None => false end.

(** ** Exceptions *)

Inductive exn_class : Type :=
| KeyError | TypeError | AttributeError | NameError | UnboundLocalError
| ValueError | OtherError.

(** Every class above derives from [Exception]; [exn_msg] is [str(e)]. *)
Record exn : Type := Exn { exn_cls : exn_class; exn_msg : string }.

Definition key_error (k : string) : exn := Exn KeyError ("'" +:+ k +:+ "'").

Definition none_not_iterable : exn :=
  Exn TypeError "'NoneType' object is not iterable".

Definition none_not_container : exn :=
  Exn TypeError "argument of type 'NoneType' is not iterable".

Definition none_not_callable : exn :=
  Exn TypeError "'NoneType' object is not callable".

Definition unbound_model_class_name : exn :=
  Exn UnboundLocalError
      "local variable 'model_class_name' referenced before assignment".

Definition db_client_undefined : exn :=
  Exn NameError "global name 'db_client' is not defined".

Definition bucket_name_not_string : exn :=
  Exn TypeError "Bucket name must be a string".

Definition no_attribute (tyname attr : string) : exn :=
  Exn AttributeError
      ("'" +:+ tyname +:+ "' object has no attribute '" +:+ attr +:+ "'").

(** ** The collaborators the two modules import *)

(** A model class of [nova.db.discovery.models]: whether it derives from
    [NovaBase] (which carries [update_foreign_keys]), the attributes a fresh
    instance already answers [hasattr] for, and how an assignment by name is
    received: [None] stores the value, [Some e] raises [e]. *)
Record ModelClass : Type := {
  mc_name : string;
  mc_is_novabase : bool;
  mc_class_attrs : list string;
  mc_setattr : string -> value -> option exn
}.

(** The environment of one run: the type registry of [models], the records of
    the Riak store (a record is a JSON object; a key without record has
    [data = None]), the parsers behind the two scalar strategies, and [repr]
    for the values whose [str] is not modelled. *)
Record World : Type := {
  get_model_class_from_name : value -> option ModelClass;
  get_model_classname_from_tablename : string -> value;
  riak_data : gmap (string * string) (N * dict);
  strptime : value -> exn + Z;
  IPNetwork : value -> exn + string;
  py_repr : value -> string
}.

(** ** State *)

Record Model : Type := { m_class : ModelClass; m_attrs : gmap string value }.

(** [heap]: the model objects, by address.  [cache]: [self.cache] of the
    engine.  [lazy_cache]: [self.cache] of the lazy reference.
    [db_client_gets] and [dbClient_gets]: the [bucket(b).get(k)] calls made
    through the client of [desimplifier.py] and of [lazy_reference.py].
    [hooks]: the objects [update_foreign_keys] was called on, in order. *)
Record State : Type := {
  heap : list Model;
  cache : gmap string value;
  lazy_cache : gmap string value;
  db_client_gets : list (string * string);
  dbClient_gets : list (string * string);
  hooks : list nat
}.

Definition init_state : State :=
  {| heap := []; cache := ∅; lazy_cache := ∅;
     db_client_gets := []; dbClient_gets := []; hooks := [] |}.

Definition set_heap (h : list Model) (st : State) : State :=
  {| heap := h; cache := cache st; lazy_cache := lazy_cache st;
     db_client_gets := db_client_gets st; dbClient_gets := dbClient_gets st;
     hooks := hooks st |}.

Definition set_cache (c : gmap string value) (st : State) : State :=
  {| heap := heap st; cache := c; lazy_cache := lazy_cache st;
     db_client_gets := db_client_gets st; dbClient_gets := dbClient_gets st;
     hooks := hooks st |}.

Definition set_lazy_cache (c : gmap string value) (st : State) : State :=
  {| heap := heap st; cache := cache st; lazy_cache := c;
     db_client_gets := db_client_gets st; dbClient_gets := dbClient_gets st;
     hooks := hooks st |}.

Definition log_db_client_get (b k : string) (st : State) : State :=
  {| heap := heap st; cache := cache st; lazy_cache := lazy_cache st;
     db_client_gets := db_client_gets st ++ [(b, k)];
     dbClient_gets := dbClient_gets st; hooks := hooks st |}.

Definition log_dbClient_get (b k : string) (st : State) : State :=
  {| heap := heap st; cache := cache st; lazy_cache := lazy_cache st;
     db_client_gets := db_client_gets st;
     dbClient_gets := dbClient_gets st ++ [(b, k)]; hooks := hooks st |}.

Definition log_hook (a : nat) (st : State) : State :=
  {| heap := heap st; cache := cache st; lazy_cache := lazy_cache st;
     db_client_gets := db_client_gets st; dbClient_gets := dbClient_gets st;
     hooks := hooks st ++ [a] |}.

(** ** The monad *)

(** [OutOfFuel] is the model's own outcome for a recursion cut short; no
    [except] clause catches it. *)
Inductive outcome (A : Type) : Type :=
| Ok (a : A)
| Raise (e : exn)
| OutOfFuel.
Arguments Ok {A} a.
Arguments Raise {A} e.
Arguments OutOfFuel {A}.

Definition M (A : Type) : Type := State -> outcome A * State.

Definition ret {A} (a : A) : M A := fun st => (Ok a, st).
Definition raise {A} (e : exn) : M A := fun st => (Raise e, st).
Definition out_of_fuel {A} : M A := fun st => (OutOfFuel, st).

Definition bind {A B} (m : M A) (f : A -> M B) : M B :=
  fun st =>
    match m st with
    | (Ok a, st') => f a st'
    | (Raise e, st') => (Raise e, st')
    | (OutOfFuel, st') => (OutOfFuel, st')
    end.

Notation "x <- m ;; k" := (bind m (fun x => k))
  (at level 100, m at level 99, right associativity).
Notation "m ;;; k" := (bind m (fun _ => k))
  (at level 100, right associativity).

(** [try: body except Exception as e: handler e]. *)
Definition try_except {A} (body : M A) (handler : exn -> M A) : M A :=
  fun st =>
    match body st with
    | (Raise e, st') => handler e st'
    | r => r
    end.

Definition lift_sum {A} (r : exn + A) : M A :=
  match r with inl e => raise e | inr a => ret a end.

Definition gets {A} (f : State -> A) : M A := fun st => (Ok (f st), st).
Definition modify (f : State -> State) : M unit := fun st => (Ok tt, f st).

(** A [for] loop over a list, for its effects. *)
Fixpoint for_each {A} (f : A -> M unit) (l : list A) : M unit :=
  match l with
  | [] => ret tt
  | x :: l' => f x ;;; for_each f l'
  end.

(** [list_result += [f(item)]] for every item. *)
Fixpoint map_M {A B} (f : A -> M B) (l : list A) : M (list B) :=
  match l with
  | [] => ret []
  | x :: l' => y <- f x ;; ys <- map_M f l' ;; ret (y :: ys)
  end.

(** ** Primitive operations on model objects *)

(** [model()]: a fresh, empty instance at the next address. *)
Definition new_model (c : ModelClass) : M value :=
  fun st =>
    (Ok (VObj (length (heap st))),
     set_heap (heap st ++ [{| m_class := c; m_attrs := ∅ |}]) st).

(** [setattr(target, key, v)]. *)
Definition py_setattr (target : value) (key : string) (v : value) : M unit :=
  match target with
  | VObj a =>
      fun st =>
        match heap st !! a with
        | Some m =>
            match mc_setattr (m_class m) key v with
            | Some e => (Raise e, st)
            | None =>
                (Ok tt,
                 set_heap (<[a := {| m_class := m_class m;
                                     m_attrs := <[key := v]> (m_attrs m) |}]>
                             (heap st)) st)
            end
        | None => (Raise (no_attribute "object" key), st)
        end
  | _ => raise (no_attribute "NoneType" key)
  end.

(** [hasattr(target, key)]. *)
Definition py_hasattr (target : value) (key : string) : M bool :=
  match target with
  | VObj a =>
      gets (fun st =>
              match heap st !! a with
              | Some m =>
                  existsb (String.eqb key) (mc_class_attrs (m_class m))
                  || bool_decide (is_Some (m_attrs m !! key))
              | None => false
              end)
  | _ => ret false
  end.

(** [isinstance(v, models.NovaBase)]. *)
Definition is_novabase (v : value) : M bool :=
  match v with
  | VObj a =>
      gets (fun st =>
              match heap st !! a with
              | Some m => mc_is_novabase (m_class m)
              | None => false
              end)
  | _ => ret false
  end.

(** [target.update_foreign_keys()]: the hook is external; the call is
    recorded.  Only [NovaBase] has the method. *)
Definition update_foreign_keys (target : value) : M unit :=
  match target with
  | VObj a =>
      b <- is_novabase target ;;
      if b then modify (log_hook a)
      else raise (no_attribute "object" "update_foreign_keys")
  | _ => raise (no_attribute "NoneType" "update_foreign_keys")
  end.

Definition is_None (v : value) : bool :=
  match v with VNone => true | _ => false end.

Definition str_is (s : string) (v : value) : bool :=
  match v with VStr s' => String.eqb s' s | _ => false end.

(** The lines of [desimplify] under [# Update foreign keys]. *)
Definition final_hook (result : value) : M value :=
  nb <- is_novabase result ;;
  (if nb then update_foreign_keys result else ret tt) ;;;
  ret result.

(** ** [desimplifier.py]: class [ObjectDesimplifier] *)

Section Engine.
Context (W : World).

(** [str(v)], and [%s] applied to [v]; containers and objects are rendered by
    [py_repr] of the world. *)
Definition py_str (v : value) : string :=
  match v with
  | VNone => "None"
  | VBool true => "True"
  | VBool false => "False"
  | VInt z => NilZero.string_of_int (Z.to_int z)
  | VStr s => s
  | _ => py_repr W v
  end.

(** [is_dict_and_has_key(obj, key)]. *)
Definition is_dict_and_has_key (obj : value) (key : string) : bool :=
  match obj with
  | VDict _ d => has_key key d
  | _ => false
  end.

(** [get_key(obj)] for a dict [obj] at address [a]: ["%s-%s"] of the table
    name and [str] of the id, or of the address twice. *)
Definition get_key (a : N) (d : dict) : exn + string :=
  match dict_get "tablename" d with
  | Some table_name =>
      match dict_get "id" d with
      | Some key => inr (py_str table_name +:+ "-" +:+ py_str key)
      | None => inl (key_error "id")
      end
  | None => inr (HexString.of_N a +:+ "-" +:+ HexString.of_N a)
  end.

(** The name [model_class_name] after the [if]/[elif] of
    [spawn_empty_model]: unbound when neither key is present. *)
Definition read_model_class_name (d : dict) : M value :=
  match dict_get "novabase_classname" d with
  | Some v => ret v
  | None =>
      match dict_get "metadata_novabase_classname" d with
      | Some v => ret v
      | None => raise unbound_model_class_name
      end
  end.

(** [get_model_class_from_name(name)()]. *)
Definition instantiate (model_class_name : value) : M value :=
  match get_model_class_from_name W model_class_name with
  | Some c => new_model c
  | None => raise none_not_callable
  end.

(** [self.cache[key]]. *)
Definition cache_lookup (key : string) : M value :=
  fun st =>
    match cache st !! key with
    | Some v => (Ok v, st)
    | None => (Raise (key_error key), st)
    end.

Definition cache_has_key (key : string) : M bool :=
  gets (fun st => bool_decide (is_Some (cache st !! key))).

Definition cache_store (key : string) (v : value) : M unit :=
  modify (fun st => set_cache (<[key := v]> (cache st)) st).

Definition spawn_empty_model (a : N) (d : dict) : M value :=
  model_class_name <- read_model_class_name d ;;
  if is_None model_class_name then ret VNone
  else
    model_object <- instantiate model_class_name ;;
    key <- lift_sum (get_key a d) ;;
    present <- cache_has_key key ;;
    (if present then ret tt
     else key' <- lift_sum (get_key a d) ;; cache_store key' model_object) ;;;
    key'' <- lift_sum (get_key a d) ;;
    cache_lookup key''.

Definition subscript (d : dict) (k : string) : M value :=
  match dict_get k d with
  | Some v => ret v
  | None => raise (key_error k)
  end.

(** [db_client.bucket(table)]: the client refuses a name that is not a
    string. *)
Definition db_client_bucket (table : value) : M string :=
  match table with
  | VStr b => ret b
  | _ => raise bucket_name_not_string
  end.

(** [object_bucket.get(key).data] through the client of [desimplifier.py]. *)
Definition db_client_get (b key : string) : M (option (N * dict)) :=
  modify (log_db_client_get b key) ;;;
  ret (riak_data W !! (b, key)).

(** The fields [update_nova_model] goes through: those of the mapping itself,
    or, under a strategy tag, those of the record fetched from the store.
    The [for] loop over [data = None] raises. *)
Definition fields_to_populate (d : dict) : M dict :=
  if has_key "simplify_strategy" d then
    table <- subscript d "tablename" ;;
    object_bucket <- db_client_bucket table ;;
    id <- subscript d "id" ;;
    riak_value <- db_client_get object_bucket (py_str id) ;;
    match riak_value with
    | Some (_, d') => ret d'
    | None => raise none_not_iterable
    end
  else ret d.

Definition list_like_marker : string := "None is not list-like".

(** The body of the [for key in obj] loop, for one key. *)
Definition populate_field (desimp : value -> M value)
    (current_model : value) (kv : string * value) : M unit :=
  let '(key, raw) := kv in
  simplified_value <- desimp raw ;;
  try_except
    (if negb (is_None simplified_value)
     then v <- desimp raw ;; py_setattr current_model key v
     else py_setattr current_model key raw)
    (fun e =>
       if str_contains list_like_marker (exn_msg e)
       then py_setattr current_model key (VList [])
       else ret tt).

(** [if hasattr(current_model, name) and obj.has_key(name):
       current_model.name = obj[name]]. *)
Definition copy_scoping_field (current_model : value) (d : dict)
    (name : string) : M unit :=
  b <- py_hasattr current_model name ;;
  if b then
    match dict_get name d with
    | Some v => py_setattr current_model name v
    | None => ret tt
    end
  else ret tt.

(** What [update_nova_model] does once [current_model] and the record are at
    hand: the loop, the two scoping fields, the hook.  Both classes carry the
    same lines. *)
Definition populate (desimp : value -> M value)
    (current_model : value) (obj : dict) : M value :=
  for_each (populate_field desimp current_model) obj ;;;
  copy_scoping_field current_model obj "user_id" ;;;
  copy_scoping_field current_model obj "project_id" ;;;
  update_foreign_keys current_model ;;;
  ret current_model.

Definition update_nova_model (desimp : value -> M value)
    (a : N) (d : dict) : M value :=
  key <- lift_sum (get_key a d) ;;
  current_model <- cache_lookup key ;;
  obj <- fields_to_populate d ;;
  populate desimp current_model obj.

Definition novabase_desimplify (desimp : value -> M value)
    (a : N) (d : dict) : M value :=
  key <- lift_sum (get_key a d) ;;
  present <- cache_has_key key ;;
  (if present then ret tt
   else
     m <- spawn_empty_model a d ;;
     cache_store key m ;;;
     update_nova_model desimp a d ;;;
     ret tt) ;;;
  cache_lookup key.

Definition datetime_desimplify (d : dict) : M value :=
  v <- subscript d "value" ;;
  result <- lift_sum (strptime W v) ;;
  tz <- subscript d "timezone" ;;
  ret (VDatetime result (str_is "UTC" tz)).

Definition ipnetwork_desimplify (d : dict) : M value :=
  v <- subscript d "value" ;;
  n <- lift_sum (IPNetwork W v) ;;
  ret (VIPNetwork n).

(** The dispatch of [desimplify], before the final hook call. *)
Definition dispatch (desimp : value -> M value) (obj : value) : M value :=
  if is_dict_and_has_key obj "simplify_strategy" then
    match obj with
    | VDict a d =>
        strategy <- subscript d "simplify_strategy" ;;
        r1 <- (if str_is "datetime" strategy
               then datetime_desimplify d else ret obj) ;;
        r2 <- (if str_is "ipnetwork" strategy
               then ipnetwork_desimplify d else ret r1) ;;
        if str_is "novabase" strategy
        then novabase_desimplify desimp a d else ret r2
    | _ => ret obj
    end
  else
    match obj with
    | VList items => l <- map_M desimp items ;; ret (VList l)
    | VDict a d =>
        if has_key "novabase_classname" d then novabase_desimplify desimp a d
        else if has_key "metadata_novabase_classname" d
             then novabase_desimplify desimp a d
             else ret obj
    | _ => ret obj
    end.

(** [desimplify(obj)].  Every recursive call spends one unit of fuel. *)
Fixpoint desimplify (n : nat) (obj : value) : M value :=
  match n with
  | 0 => out_of_fuel
  | S n' =>
      result <- dispatch (desimplify n') obj ;;
      final_hook result
  end.

(** ** [lazy_reference.py]: class [LazyReference] *)

(** The fields [base] and [id]; [self.cache] is [lazy_cache] of the state and
    [self.desimplifier] is the engine of the state. *)
Record LazyReference : Type := { base : string; id : value }.

Definition lazy_get_key (r : LazyReference) : string :=
  py_str (get_model_classname_from_tablename W (base r)) +:+ "_" +:+ py_str (id r).

Definition lazy_cache_lookup (key : string) : M value :=
  fun st =>
    match lazy_cache st !! key with
    | Some v => (Ok v, st)
    | None => (Raise (key_error key), st)
    end.

Definition lazy_cache_has_key (key : string) : M bool :=
  gets (fun st => bool_decide (is_Some (lazy_cache st !! key))).

Definition lazy_cache_store (key : string) (v : value) : M unit :=
  modify (fun st => set_lazy_cache (<[key := v]> (lazy_cache st)) st).

(** [obj] is [fetched.data]: a record, or [None]. *)
Definition lazy_spawn_empty_model (r : LazyReference)
    (obj : option (N * dict)) : M value :=
  let key := lazy_get_key r in
  match obj with
  | None => raise none_not_container
  | Some (_, d) =>
      model_class_name <- read_model_class_name d ;;
      if is_None model_class_name then ret VNone
      else
        model_object <- instantiate model_class_name ;;
        present <- lazy_cache_has_key key ;;
        (if present then ret tt else lazy_cache_store key model_object) ;;;
        lazy_cache_lookup key
  end.

(** [lazy_reference.py] binds [dbClient]; the name [db_client] read under a
    strategy tag is bound nowhere in the module. *)
Definition lazy_fields_to_populate (d : dict) : M dict :=
  if has_key "simplify_strategy" d then raise db_client_undefined
  else ret d.

Definition lazy_update_nova_model (n : nat) (r : LazyReference)
    (obj : option (N * dict)) : M value :=
  let key := lazy_get_key r in
  current_model <- lazy_cache_lookup key ;;
  match obj with
  | None => raise none_not_container
  | Some (_, d) =>
      obj' <- lazy_fields_to_populate d ;;
      populate (desimplify n) current_model obj'
  end.

Definition load (n : nat) (r : LazyReference) : M value :=
  let key := lazy_get_key r in
  modify (log_dbClient_get (base r) (py_str (id r))) ;;;
  obj <- ret (riak_data W !! (base r, py_str (id r))) ;;
  lazy_spawn_empty_model r obj ;;;
  lazy_update_nova_model n r obj ;;;
  lazy_cache_lookup key.

Definition get_complex_ref (n : nat) (r : LazyReference) : M value :=
  let key := lazy_get_key r in
  present <- lazy_cache_has_key key ;;
  (if present then ret tt else load n r ;;; ret tt) ;;;
  lazy_cache_lookup key.

(** [__str__] and [__repr__]. *)
Definition lazy_str (r : LazyReference) : M string :=
  ret ("Lazy(" +:+ lazy_get_key r +:+ ")").

Definition lazy_repr (r : LazyReference) : M string :=
  ret ("Lazy(" +:+ lazy_get_key r +:+ ")").

End Engine.

(** ** Measures on values and on the store *)

(** Nesting depth of a simplified value. *)
Fixpoint height (v : value) : nat :=
  match v with
  | VList items => S (list_max (map height items))
  | VDict _ d =>
      S (list_max (map (fun kv => match kv with (_, x) => height x end) d))
  | _ => 0
  end.

(** The cache keys under which a record of the store can be fetched. *)
Definition fetch_keys (W : World) : gset string :=
  set_map (fun bk : string * string => bk.1 +:+ "-" +:+ bk.2) (dom (riak_data W)).

(** The deepest record of the store. *)
Definition store_height (W : World) : nat :=
  list_max (map (fun e : (string * string) * (N * dict) =>
                   height (VDict e.2.1 e.2.2))
                (map_to_list (riak_data W))).

(** Records of the store not yet bound in the identity cache. *)
Definition pending (W : World) (st : State) : nat :=
  size (fetch_keys W ∖ dom (cache st)).

(** Fuel that lets [desimplify] run to its end. *)
Definition enough_fuel (W : World) (v : value) (st : State) : nat :=
  S (height v + pending W st * S (store_height W)).


(** ** What a run of the engine leaves in place *)

(** [extends b st st']: [st'] is reached from [st] by a run that writes to no
    object below address [b].  Cache bindings and the class of every object
    stay, the logs of the engine grow at their end, the memo of the lazy
    reference keeps its bindings and its client log is untouched. *)
Record extends (b : nat) (st st' : State) : Prop := {
  ext_cache : cache st ⊆ cache st';
  ext_heap_len : length (heap st) ≤ length (heap st');
  ext_heap_class :
    ∀ a m, heap st !! a = Some m →
           ∃ m', heap st' !! a = Some m' ∧ m_class m' = m_class m;
  ext_frame : ∀ a, a < b → heap st' !! a = heap st !! a;
  ext_hooks : hooks st `prefix_of` hooks st';
  ext_gets : db_client_gets st `prefix_of` db_client_gets st';
  ext_lazy_cache : lazy_cache st ⊆ lazy_cache st';
  ext_dbClient : dbClient_gets st' = dbClient_gets st
}.

(** A computation all of whose runs extend the state, whatever the outcome. *)
Definition pres {A} (b : nat) (m : M A) : Prop :=
  ∀ st r st', b ≤ length (heap st) → m st = (r, st') → extends b st st'.

(** A computation that does not run out of fuel from [st]. *)
Definition finishes {A} (m : M A) (st : State) : Prop :=
  (m st).1 ≠ OutOfFuel.

(** A computation that never runs out of fuel. *)
Definition total {A} (m : M A) : Prop := ∀ st, finishes m st.

(** [desimp] is to finish on [raw] from every state that extends [st]. *)
Definition finishes_from (desimp : value → M value) (st : State) (raw : value) : Prop :=
  ∀ st', extends 0 st st' → finishes (desimp raw) st'.

(** The target of an assignment is not an object below [b]. *)
Definition not_below (b : nat) (target : value) : Prop :=
  match target with VObj o => b ≤ o | _ => True end.

(** The attribute [key] of the object at [o]. *)
Definition attr (st : State) (o : nat) (key : string) : option value :=
  match heap st !! o with
  | Some m => m_attrs m !! key
  | None => None
  end.

(** The state in which [novabase_desimplify] starts to populate a fresh
    object [m] under [key]. *)
Definition spawned (key : string) (st : State) (m : value) (st2 : State) : Prop :=
  (m = VNone ∧ st2 = set_cache (<[key := VNone]> (cache st)) st) ∨
  (∃ c, m = VObj (length (heap st)) ∧
        st2 = set_cache (<[key := m]> (cache st))
                (set_heap (heap st ++ [{| m_class := c; m_attrs := ∅ |}]) st)).

(** The object at [o] is there, of class [c]. *)
Definition has_class (st : State) (o : nat) (c : ModelClass) : Prop :=
  ∃ m, heap st !! o = Some m ∧ m_class m = c.

(** A computation that leaves the attribute [key] of the object at [o] as it
    is, whatever the outcome. *)
Definition keeps {A} (o : nat) (key : string) (m : M A) : Prop :=
  ∀ st r st', o < length (heap st) → m st = (r, st') →
              attr st' o key = attr st o key ∧ o < length (heap st').

(** A mapping that [desimplify] hands to [novabase_desimplify]: tagged
    ['novabase'], or untagged with one of the two class name fields. *)
Definition reconstructs (d : dict) : bool :=
  match dict_get "simplify_strategy" d with
  | Some s => str_is "novabase" s
  | None => has_key "novabase_classname" d || has_key "metadata_novabase_classname" d
  end.

Definition has_classname (d : dict) : bool :=
  has_key "novabase_classname" d || has_key "metadata_novabase_classname" d.

(** What [desimplify] runs on a mapping it reconstructs: [novabase_desimplify],
    then the hook on a [NovaBase] result. *)
Definition reconstruction (W : World) (n : nat) (a : N) (d : dict) : M value :=
  result <- novabase_desimplify W (desimplify W n) a d ;;
  final_hook result.

(** The record whose fields [update_nova_model] assigns: the mapping itself,
    or under a strategy tag the record the store holds for it. *)
Definition record_of (W : World) (d : dict) : option dict :=
  if has_key "simplify_strategy" d then
    match dict_get "tablename" d, dict_get "id" d with
    | Some (VStr b), Some i => snd <$> riak_data W !! (b, py_str W i)
    | _, _ => None
    end
  else Some d.

(** ** A sample world *)

Definition list_like_error : exn :=
  Exn TypeError "Incompatible collection type: None is not list-like".

(** [Instance]: a [NovaBase] model whose [metadata] relationship is a list and
    whose [locked] attribute refuses every assignment. *)
Definition Instance : ModelClass :=
  {| mc_name := "Instance";
     mc_is_novabase := true;
     mc_class_attrs := ["id"; "user_id"; "project_id"; "metadata"];
     mc_setattr := fun key v =>
       if String.eqb key "metadata" && is_None v then Some list_like_error
       else if String.eqb key "locked" then Some (Exn ValueError "read-only")
       else None |}.

Definition sample_registry (name : value) : option ModelClass :=
  if str_is "Instance" name then Some Instance else None.

Definition sample_classname (table : string) : value :=
  if String.eqb table "instances" then VStr "Instance" else VNone.

Definition sample_strptime (v : value) : exn + Z :=
  if str_is "Jan 02 2020 03:04:05" v then inr 1577934245%Z
  else inl (Exn ValueError "time data does not match format").

Definition sample_world (records : list ((string * string) * (N * dict))) : World :=
  {| get_model_class_from_name := sample_registry;
     get_model_classname_from_tablename := sample_classname;
     riak_data := list_to_map records;
     strptime := sample_strptime;
     IPNetwork := fun _ => inl (Exn OtherError "invalid IPNetwork");
     py_repr := fun _ => "<object>" |}.

Definition empty_world : World := sample_world [].

(** An inline object mapping of class [Instance] in table [table]. *)
Definition instance_in (table : string) (i : Z) (extra : dict) : dict :=
  [("novabase_classname", VStr "Instance"); ("tablename", VStr table);
   ("id", VInt i)] ++ extra.

Definition instance_record (i : Z) (extra : dict) : dict :=
  instance_in "instances" i extra.

(** A bare reference to the instance [i]. *)
Definition instance_ref (i : Z) : dict :=
  [("simplify_strategy", VStr "novabase"); ("novabase_classname", VStr "Instance");
   ("tablename", VStr "instances"); ("id", VInt i)].

Definition one_instance : Model :=
  {| m_class := Instance; m_attrs := ∅ |}.

Definition one_instance_state : State := set_heap [one_instance] init_state.

(** *** Sample inputs *)

(** A mapping without strategy tag and without class name, holding an object
    mapping. *)
Definition plain_mapping : dict :=
  [("name", VStr "vm"); ("nested", VDict 2 (instance_record 1 []))].

(** A datetime encoding that also carries a class name. *)
Definition datetime_with_classname : dict :=
  [("simplify_strategy", VStr "datetime"); ("value", VStr "Jan 02 2020 03:04:05");
   ("timezone", VStr "UTC"); ("novabase_classname", VStr "Instance");
   ("tablename", VStr "instances"); ("id", VInt 1)].

(** Object references whose class name is missing, [None], or not registered. *)
Definition absent_classname : dict :=
  [("simplify_strategy", VStr "novabase"); ("tablename", VStr "instances");
   ("id", VInt 1)].

Definition none_classname : dict :=
  [("novabase_classname", VNone); ("tablename", VStr "instances"); ("id", VInt 1)].

Definition unknown_classname : dict :=
  [("novabase_classname", VStr "Ghost"); ("tablename", VStr "ghosts"); ("id", VInt 1)].

(** Two mappings of one class and one id, filed under two tables. *)
Definition two_tables : value :=
  VList [VDict 1 (instance_in "instances" 1 []);
         VDict 2 (instance_in "instances_shadow" 1 [])].

(** An instance whose field [me] is a mapping with its own key, and one
    whose field [me] has its class name and id under another table name. *)
Definition self_mapping : dict :=
  instance_record 1 [("me", VDict 2 (instance_record 1 []))].

Definition shadow_self_mapping : dict :=
  instance_record 1 [("me", VDict 2 (instance_in "instances_shadow" 1 []))].

(** A store whose record of instance 1 refers to instance 1 in its field
    [me]. *)
Definition self_record : dict :=
  instance_record 1 [("me", VDict 8 (instance_ref 1))].

Definition cyclic_world : World :=
  sample_world [(("instances", "1"), (7%N, self_record))].

(** A store whose record of instance 1 is itself a bare reference, and one
    whose record is inline. *)
Definition indirect_world : World :=
  sample_world [(("instances", "1"), (7%N, instance_ref 1))].

Definition stored_world : World :=
  sample_world [(("instances", "1"), (7%N, instance_record 1 [("name", VStr "vm")]))].

(** A store whose record of instance 1 has the class name [None]. *)
Definition nameless_world : World :=
  sample_world [(("instances", "1"), (7%N, none_classname))].

(** The lazy reference to instance 1. *)
Definition lazy_one : LazyReference := {| base := "instances"; id := VInt 1 |}.

(** [Frozen]: a [NovaBase] model whose [tags] attribute refuses [None] as not
    list-like and refuses every other value as well, the empty list
    included. *)
Definition Frozen : ModelClass :=
  {| mc_name := "Frozen";
     mc_is_novabase := true;
     mc_class_attrs := ["id"; "tags"];
     mc_setattr := fun key v =>
       if String.eqb key "tags" then
         if is_None v then Some list_like_error
         else Some (Exn ValueError "read-only")
       else None |}.

Definition frozen_world : World :=
  {| get_model_class_from_name :=
       fun name => if str_is "Frozen" name then Some Frozen else None;
     get_model_classname_from_tablename := fun _ => VStr "Frozen";
     riak_data := ∅;
     strptime := sample_strptime;
     IPNetwork := fun _ => inl (Exn OtherError "invalid IPNetwork");
     py_repr := fun _ => "<object>" |}.

(** An inline mapping of class [Frozen] whose [tags] is [None]. *)
Definition frozen_record : dict :=
  [("novabase_classname", VStr "Frozen"); ("tablename", VStr "frozen");
   ("id", VInt 1); ("tags", VNone); ("name", VStr "vm")].

Definition one_frozen_state : State :=
  set_heap [{| m_class := Frozen; m_attrs := ∅ |}] init_state.

(** ** The writes of the engine *)

(** The state after an optional [bucket(b).get(k)] of the engine's client. *)
Definition fetched (fetch : option (string * string)) (st : State) : State :=
  match fetch with
  | Some (b, k) => log_db_client_get b k st
  | None => st
  end.

(** The three ways in which a run of [desimplify] changes the state: it
    binds a key that the cache does not hold to a fresh object or to [None]
    ([novabase_desimplify]), fetching the record filed under that key or not
    ([update_nova_model]); it stores an attribute that the class of the
    object accepts ([setattr]); it calls the hook of a [NovaBase] object. *)
Inductive engine_step : State → State → Prop :=
| step_reconstruct st key m st2 fetch :
    cache st !! key = None →
    spawned key st m st2 →
    (∀ b k, fetch = Some (b, k) → key = b +:+ "-" +:+ k) →
    engine_step st (fetched fetch st2)
| step_setattr st a m key v :
    heap st !! a = Some m →
    mc_setattr (m_class m) key v = None →
    engine_step st
      (set_heap (<[a := {| m_class := m_class m;
                           m_attrs := <[key := v]> (m_attrs m) |}]> (heap st)) st)
| step_hook st a m :
    heap st !! a = Some m → mc_is_novabase (m_class m) = true →
    engine_step st (log_hook a st).

(** A computation all of whose runs are sequences of such writes. *)
Definition walks {A} (m : M A) : Prop :=
  ∀ st r st', m st = (r, st') → rtc engine_step st st'.

(** Every value bound in the cache is [None] or an object of the heap. *)
Definition cache_live (st : State) : Prop :=
  ∀ k v, cache st !! k = Some v →
         v = VNone ∨ ∃ a, v = VObj a ∧ a < length (heap st).

(** Every attribute an object holds is one its class accepts. *)
Definition attrs_accepted (st : State) : Prop :=
  ∀ a m key v, heap st !! a = Some m → m_attrs m !! key = Some v →
               mc_setattr (m_class m) key v = None.

(** The cache key under which the record of bucket [b] and key [k] is
    bound. *)
Definition key_of_fetch (bk : string * string) : string :=
  bk.1 +:+ "-" +:+ bk.2.

(** The fetches made since [st0]: one per key, each for a key bound since
    [st0]. *)
Definition fetched_since (st0 st : State) : Prop :=
  cache st0 ⊆ cache st ∧
  ∃ new, db_client_gets st = (db_client_gets st0 ++ new)%list ∧
         NoDup (key_of_fetch <$> new) ∧
         ∀ bk, bk ∈ new →
               is_Some (cache st !! key_of_fetch bk) ∧
               cache st0 !! key_of_fetch bk = None.

(** A value of the wire format that is neither a mapping nor a sequence. *)
Definition is_scalar (v : value) : bool :=
  match v with
  | VNone | VBool _ | VInt _ | VStr _ => true
  | _ => false
  end.

(** A datetime encoding and a network encoding. *)
Definition utc_stamp : dict :=
  [("simplify_strategy", VStr "datetime");
   ("value", VStr "Jan 02 2020 03:04:05"); ("timezone", VStr "UTC")].

Definition private_network : dict :=
  [("simplify_strategy", VStr "ipnetwork"); ("value", VStr "10.0.0.0/24")].

(** A world whose network parser takes every string as it is. *)
Definition net_world : World :=
  {| get_model_class_from_name := sample_registry;
     get_model_classname_from_tablename := sample_classname;
     riak_data := ∅;
     strptime := sample_strptime;
     IPNetwork := fun v => match v with
                           | VStr s => inr s
                           | _ => inl (Exn OtherError "invalid IPNetwork")
                           end;
     py_repr := fun _ => "<object>" |}.

(** A sequence with a scalar and twice the same instance. *)
Definition mixed_sequence : list value :=
  [VInt 1; VDict 1 (instance_record 1 []); VDict 2 (instance_record 1 [])].

(** An object mapping with a table name and no id. *)
Definition without_id : dict :=
  [("novabase_classname", VStr "Instance"); ("tablename", VStr "instances")].

(** Instances with textual ids, in a table of the given name. *)
Definition text_instance (table id : string) : dict :=
  [("novabase_classname", VStr "Instance"); ("tablename", VStr table);
   ("id", VStr id)].

(** A record whose [user_id] is a datetime encoding. *)
Definition stamped_user : dict :=
  [("name", VStr "vm"); ("user_id", VDict 3 utc_stamp)].

(** [m'] does what [m] does wherever [m] does not run out of fuel. *)
Definition refines {A} (m m' : M A) : Prop :=
  ∀ st r st', m st = (r, st') → r ≠ OutOfFuel → m' st = (r, st').

(** ** [LazyReference.__nonzero__] *)

(** [bool(v)]: model objects are true, as objects without [__nonzero__] and
    [__len__] are. *)
Definition py_truth (v : value) : bool :=
  match v with
  | VNone => false
  | VBool b => b
  | VInt z => negb (Z.eqb z 0)
  | VStr s => negb (String.eqb s "")
  | VList items => match items with [] => false | _ => true end
  | VDict _ d => match d with [] => false | _ => true end
  | VObj _ => true
  | VDatetime _ _ => true
  | VIPNetwork _ => true
  end.

(** [not not self.get_complex_ref()]. *)
Definition lazy_nonzero (W : World) (n : nat) (r : LazyReference) : M bool :=
  v <- get_complex_ref W n r ;;
  ret (negb (negb (py_truth v))).

(** The state in which a lazy reference starts to populate its object: the
    fetch of [load] is logged, the object is allocated and memoized. *)
Definition lazy_spawned (W : World) (r : LazyReference) (c : ModelClass)
    (st : State) : State :=
  set_lazy_cache (<[lazy_get_key W r := VObj (length (heap st))]> (lazy_cache st))
    (set_heap (heap st ++ [{| m_class := c; m_attrs := ∅ |}])
       (log_dbClient_get (base r) (py_str W (id r)) st)).

(** ** [desimplifier.py]: the two module functions *)

(** [c.upper()] and [c.lower()] on an ASCII character. *)
Definition ascii_upper (c : ascii) : ascii :=
  let n := N_of_ascii c in
  if ((97 <=? n) && (n <=? 122))%N then ascii_of_N (n - 32) else c.

Definition ascii_lower (c : ascii) : ascii :=
  let n := N_of_ascii c in
  if ((65 <=? n) && (n <=? 90))%N then ascii_of_N (n + 32) else c.

Fixpoint string_map (f : ascii → ascii) (s : string) : string :=
  match s with
  | "" => ""
  | String c r => String (f c) (string_map f r)
  end.

(** [x.capitalize()]: the first character in upper case, the others in lower
    case. *)
Definition capitalize (x : string) : string :=
  match x with
  | "" => ""
  | String c r => String (ascii_upper c) (string_map ascii_lower r)
  end.

(** [word.split('_')]: the pieces between the underscores, empty ones
    included; the empty word has one empty piece. *)
Fixpoint split_underscore (word : string) : list string :=
  match word with
  | "" => [""]
  | String c r =>
      if Ascii.eqb c "_" then "" :: split_underscore r
      else match split_underscore r with
           | p :: ps => String c p :: ps
           | [] => [String c ""]
           end
  end.

(** [''.join(pieces)]. *)
Definition join_strings (pieces : list string) : string :=
  fold_right String.append "" pieces.

(** [x.capitalize() or '_']. *)
Definition capitalize_or_underscore (x : string) : string :=
  match capitalize x with
  | "" => "_"
  | y => y
  end.

Definition convert_to_camelcase (word : string) : string :=
  join_strings (map capitalize_or_underscore (split_underscore word)).

(** What [find_table_name] looks at in a model candidate: [__tablename__];
    [table], with its [name] or without; [class_], with its [__tablename__]
    or without; [clauses].  Names are text. *)
Inductive candidate : Type :=
| Candidate (tablename : option string)
            (table : option (option string))
            (class_ : option (option string))
            (clauses : option (list candidate)).

Fixpoint find_table_name (model : candidate) : exn + string :=
  match model with
  | Candidate tablename table class_ clauses =>
      match tablename with
      | Some name => inr name
      | None =>
          match table with
          | Some (Some name) => inr name
          | Some None => inl (no_attribute "object" "name")
          | None =>
              match class_ with
              | Some (Some name) => inr name
              | Some None => inl (no_attribute "object" "__tablename__")
              | None =>
                  match clauses with
                  | Some (clause :: _) => find_table_name clause
                  | _ => inr "none"
                  end
              end
          end
      end
  end.

(** The candidate with, at every depth, its first clause only. *)
Fixpoint first_clause_only (model : candidate) : candidate :=
  match model with
  | Candidate tablename table class_ clauses =>
      Candidate tablename table class_
        match clauses with
        | Some (clause :: _) => Some [first_clause_only clause]
        | other => other
        end
  end.

(** Does the character occur in the string? *)
Fixpoint occurs (c : ascii) (s : string) : bool :=
  match s with
  | "" => false
  | String c' r => Ascii.eqb c' c || occurs c r
  end.

(** A join of two candidates, the second of which has a table name. *)
Definition sample_join : candidate :=
  Candidate None None None
    (Some [Candidate None None None None;
           Candidate (Some "instances") None None None]).

(** ** Running the monad *)

Lemma bind_run {A B} (m : M A) (f : A → M B) st r st' :
  bind m f st = (r, st') →
  (∃ a st1, m st = (Ok a, st1) ∧ f a st1 = (r, st')) ∨
  (∃ e, m st = (Raise e, st') ∧ r = Raise e) ∨
  (m st = (OutOfFuel, st') ∧ r = OutOfFuel).
Proof.
  unfold bind. destruct (m st) as [[a | e |] st1]; intros H.
  - left. eauto.
  - right. left. inversion H; subst. eauto.
  - right. right. inversion H; subst. eauto.
Qed.

Lemma bind_ok {A B} (m : M A) (f : A → M B) st a st1 :
  m st = (Ok a, st1) → bind m f st = f a st1.
Proof. unfold bind. intros ->. reflexivity. Qed.

Lemma bind_raise {A B} (m : M A) (f : A → M B) st e st1 :
  m st = (Raise e, st1) → bind m f st = (Raise e, st1).
Proof. unfold bind. intros ->. reflexivity. Qed.

Lemma bind_run_out {A B} (m : M A) (f : A → M B) st st1 :
  m st = (OutOfFuel, st1) → bind m f st = (OutOfFuel, st1).
Proof. unfold bind. intros ->. reflexivity. Qed.

(** A bind that returns went through its first half. *)
Lemma bind_ok_inv {A B} (m : M A) (f : A → M B) st b st' :
  bind m f st = (Ok b, st') →
  ∃ a st1, m st = (Ok a, st1) ∧ f a st1 = (Ok b, st').
Proof.
  intros H. apply bind_run in H as [H | [(e & _ & H) | (_ & H)]];
    [exact H | discriminate | discriminate].
Qed.

Lemma try_except_run {A} (body : M A) (h : exn → M A) st r st' :
  try_except body h st = (r, st') →
  (∃ e st1, body st = (Raise e, st1) ∧ h e st1 = (r, st')) ∨
  (body st = (r, st') ∧ ∀ e, r ≠ Raise e).
Proof.
  unfold try_except. destruct (body st) as [[a | e |] st1]; intros H.
  - right. split; [exact H | inversion H; congruence].
  - left. eauto.
  - right. split; [exact H | inversion H; congruence].
Qed.

(** ** [extends] is a preorder *)

Lemma extends_refl b st : extends b st st.
Proof.
  split; try reflexivity.
  intros a m H. exists m. auto.
Qed.

Lemma extends_trans b st1 st2 st3 :
  extends b st1 st2 → extends b st2 st3 → extends b st1 st3.
Proof.
  intros [c1 l1 h1 f1 k1 g1 z1 d1] [c2 l2 h2 f2 k2 g2 z2 d2]. split.
  - etrans; eassumption.
  - lia.
  - intros a m Hm. destruct (h1 a m Hm) as (m' & Hm' & Hc).
    destruct (h2 a m' Hm') as (m'' & Hm'' & Hc').
    exists m''. split; [assumption | congruence].
  - intros a Ha. rewrite f2 by exact Ha. apply f1. exact Ha.
  - etrans; eassumption.
  - etrans; eassumption.
  - etrans; eassumption.
  - congruence.
Qed.

(** Writing below fewer addresses is a weaker promise. *)
Lemma extends_weaken b b' st st' :
  b' ≤ b → extends b st st' → extends b' st st'.
Proof.
  intros Hb [c l h f k g z d]. split; try assumption.
  intros a Ha. apply f. lia.
Qed.

Lemma extends_set_heap_app b st ms :
  b ≤ length (heap st) → extends b st (set_heap (heap st ++ ms) st).
Proof.
  intros Hb. split; simpl; try reflexivity.
  - rewrite length_app. lia.
  - intros a m H. exists m. split; [| reflexivity].
    apply lookup_app_l_Some. exact H.
  - intros a Ha. apply lookup_app_l. lia.
Qed.

Lemma extends_set_cache b st c : cache st ⊆ c → extends b st (set_cache c st).
Proof.
  intros H. split; simpl; try reflexivity; try exact H.
  intros a m Hm. eauto.
Qed.

Lemma extends_cache_fresh b st key v :
  cache st !! key = None → extends b st (set_cache (<[key := v]> (cache st)) st).
Proof. intros H. apply extends_set_cache. apply insert_subseteq. exact H. Qed.

Lemma extends_set_lazy_cache b st key v :
  lazy_cache st !! key = None →
  extends b st (set_lazy_cache (<[key := v]> (lazy_cache st)) st).
Proof.
  intros H. split; simpl; try reflexivity.
  - intros a m Hm. eauto.
  - apply insert_subseteq. exact H.
Qed.

Lemma extends_setattr b st a m key v :
  b ≤ a → heap st !! a = Some m →
  extends b st (set_heap (<[a := {| m_class := m_class m;
                                    m_attrs := <[key := v]> (m_attrs m) |}]>
                            (heap st)) st).
Proof.
  intros Hb H. split; simpl; try reflexivity.
  - rewrite length_insert. lia.
  - intros a' m' Hm'. destruct (decide (a = a')) as [-> | Hne].
    + rewrite list_lookup_insert_eq by (eapply lookup_lt_Some; eassumption).
      eexists. split; [reflexivity |]. simpl. congruence.
    + rewrite list_lookup_insert_ne by assumption. eauto.
  - intros a' Ha'. apply list_lookup_insert_ne. lia.
Qed.

Lemma extends_log_hook b st a : extends b st (log_hook a st).
Proof.
  split; simpl; try reflexivity.
  - eauto.
  - apply prefix_app_r. reflexivity.
Qed.

Lemma extends_log_get b st t k : extends b st (log_db_client_get t k st).
Proof.
  split; simpl; try reflexivity.
  - eauto.
  - apply prefix_app_r. reflexivity.
Qed.

(** ** Computations that extend the state *)

Lemma pres_ret {A} b (a : A) : pres b (ret a).
Proof. intros st r st' _ H. inversion H. apply extends_refl. Qed.

Lemma pres_raise {A} b e : pres b (@raise A e).
Proof. intros st r st' _ H. inversion H. apply extends_refl. Qed.

Lemma pres_out_of_fuel {A} b : pres b (@out_of_fuel A).
Proof. intros st r st' _ H. inversion H. apply extends_refl. Qed.

Lemma pres_gets {A} b (f : State → A) : pres b (gets f).
Proof. intros st r st' _ H. inversion H. apply extends_refl. Qed.

Lemma pres_lift_sum {A} b (x : exn + A) : pres b (lift_sum x).
Proof. destruct x; [apply pres_raise | apply pres_ret]. Qed.

Lemma pres_bind {A B} b (m : M A) (f : A → M B) :
  pres b m → (∀ a, pres b (f a)) → pres b (bind m f).
Proof.
  intros Hm Hf st r st' Hb H.
  apply bind_run in H as [(a & st1 & H1 & H2) | [(e & H1 & _) | (H1 & _)]].
  - pose proof (Hm _ _ _ Hb H1) as E1.
    eapply extends_trans; [exact E1 |].
    eapply Hf; [| eassumption]. pose proof (ext_heap_len _ _ _ E1). lia.
  - eapply Hm; eassumption.
  - eapply Hm; eassumption.
Qed.

Lemma pres_try_except {A} b (body : M A) (h : exn → M A) :
  pres b body → (∀ e, pres b (h e)) → pres b (try_except body h).
Proof.
  intros Hm Hh st r st' Hb H.
  apply try_except_run in H as [(e & st1 & H1 & H2) | (H1 & _)].
  - pose proof (Hm _ _ _ Hb H1) as E1.
    eapply extends_trans; [exact E1 |].
    eapply Hh; [| eassumption]. pose proof (ext_heap_len _ _ _ E1). lia.
  - eapply Hm; eassumption.
Qed.

Lemma pres_for_each {A} b (f : A → M unit) l :
  (∀ x, x ∈ l → pres b (f x)) → pres b (for_each f l).
Proof.
  induction l as [| x l IH]; intros H; simpl.
  - apply pres_ret.
  - apply pres_bind.
    + apply H. left.
    + intros _. apply IH. intros y Hy. apply H. right. exact Hy.
Qed.

Lemma pres_map_M {A B} b (f : A → M B) l :
  (∀ x, x ∈ l → pres b (f x)) → pres b (map_M f l).
Proof.
  induction l as [| x l IH]; intros H; simpl.
  - apply pres_ret.
  - apply pres_bind; [apply H; left |].
    intros y. apply pres_bind.
    + apply IH. intros z Hz. apply H. right. exact Hz.
    + intros ys. apply pres_ret.
Qed.

Lemma pres_new_model b c : pres b (new_model c).
Proof.
  intros st r st' Hb H. unfold new_model in H. inversion H; subst.
  apply extends_set_heap_app. exact Hb.
Qed.

Lemma pres_py_setattr b target key v :
  not_below b target → pres b (py_setattr target key v).
Proof.
  destruct target; intros Hnb; try apply pres_raise.
  intros st r st' _ H. simpl in H, Hnb.
  destruct (heap st !! addr) as [m |] eqn:Hm.
  - destruct (mc_setattr (m_class m) key v); inversion H; subst.
    + apply extends_refl.
    + apply extends_setattr; assumption.
  - inversion H. apply extends_refl.
Qed.

Lemma pres_py_hasattr b target key : pres b (py_hasattr target key).
Proof. destruct target; try apply pres_ret. apply pres_gets. Qed.

Lemma pres_is_novabase b v : pres b (is_novabase v).
Proof. destruct v; try apply pres_ret. apply pres_gets. Qed.

Lemma pres_update_foreign_keys b target : pres b (update_foreign_keys target).
Proof.
  destruct target; try apply pres_raise.
  apply pres_bind; [apply pres_is_novabase |].
  intros [|]; [| apply pres_raise].
  intros st r st' _ H. inversion H. apply extends_log_hook.
Qed.

Create HintDb pres discriminated.
#[local] Hint Resolve pres_ret pres_raise pres_out_of_fuel pres_gets pres_lift_sum
  pres_new_model pres_py_setattr pres_py_hasattr pres_is_novabase
  pres_update_foreign_keys : pres.

Section EngineRuns.
Context (W : World).

Lemma pres_cache_lookup b key : pres b (cache_lookup key).
Proof.
  intros st r st' _ H. unfold cache_lookup in H.
  destruct (cache st !! key); inversion H; apply extends_refl.
Qed.

Lemma pres_subscript b d k : pres b (subscript d k).
Proof. unfold subscript. destruct (dict_get k d); auto with pres. Qed.

Lemma pres_read_model_class_name b d : pres b (read_model_class_name d).
Proof.
  unfold read_model_class_name.
  destruct (dict_get "novabase_classname" d); auto with pres.
  destruct (dict_get "metadata_novabase_classname" d); auto with pres.
Qed.

Lemma pres_instantiate b v : pres b (instantiate W v).
Proof.
  unfold instantiate. destruct (get_model_class_from_name W v); auto with pres.
Qed.

Lemma pres_db_client_bucket b table : pres b (db_client_bucket table).
Proof. destruct table; simpl; auto with pres. Qed.

Lemma pres_db_client_get b t key : pres b (db_client_get W t key).
Proof.
  apply pres_bind; [| auto with pres].
  intros st r st' _ H. inversion H. apply extends_log_get.
Qed.

Lemma pres_fields_to_populate b d : pres b (fields_to_populate W d).
Proof.
  unfold fields_to_populate. destruct (has_key "simplify_strategy" d); auto with pres.
  apply pres_bind; [apply pres_subscript |]. intros table.
  apply pres_bind; [apply pres_db_client_bucket |]. intros t.
  apply pres_bind; [apply pres_subscript |]. intros i.
  apply pres_bind; [apply pres_db_client_get |].
  intros [[a' d'] |]; auto with pres.
Qed.

Lemma pres_populate_field b desimp cm kv :
  not_below b cm → pres b (desimp kv.2) → pres b (populate_field desimp cm kv).
Proof.
  destruct kv as [key raw]. simpl. intros Hnb Hd.
  apply pres_bind; [exact Hd |]. intros sv.
  apply pres_try_except.
  - destruct (negb (is_None sv)); auto with pres.
    apply pres_bind; [exact Hd | auto with pres].
  - intros e. destruct (str_contains _ _); auto with pres.
Qed.

Lemma pres_copy_scoping_field b cm d name :
  not_below b cm → pres b (copy_scoping_field cm d name).
Proof.
  intros Hnb. unfold copy_scoping_field. apply pres_bind; [auto with pres |].
  intros [|]; auto with pres. destruct (dict_get name d); auto with pres.
Qed.

Lemma elem_of_dict_values (d : dict) (kv : string * value) :
  kv ∈ d → kv.2 ∈ d.*2.
Proof. intros H. apply list_elem_of_fmap. eauto. Qed.

Lemma pres_populate b desimp cm (obj : dict) :
  not_below b cm →
  (∀ v, v ∈ obj.*2 → pres b (desimp v)) →
  pres b (populate desimp cm obj).
Proof.
  intros Hnb Hd. unfold populate. apply pres_bind.
  - apply pres_for_each. intros kv Hkv. apply pres_populate_field; [exact Hnb |].
    apply Hd. apply elem_of_dict_values. exact Hkv.
  - intros _. apply pres_bind; [apply pres_copy_scoping_field; exact Hnb |].
    intros _. apply pres_bind; [apply pres_copy_scoping_field; exact Hnb |].
    intros _. apply pres_bind; auto with pres.
Qed.

(** [update_nova_model] once its key is known to be bound. *)
Lemma update_nova_model_bound desimp a d key cm st :
  get_key W a d = inr key → cache st !! key = Some cm →
  update_nova_model W desimp a d st =
  (obj <- fields_to_populate W d ;; populate desimp cm obj) st.
Proof.
  intros Hk Hc. unfold update_nova_model. rewrite Hk.
  unfold lift_sum, bind at 1, ret. unfold bind at 1, cache_lookup.
  rewrite Hc. reflexivity.
Qed.

Lemma update_nova_model_extends b desimp a d key cm st r st' :
  (∀ v, pres b (desimp v)) →
  get_key W a d = inr key → cache st !! key = Some cm → not_below b cm →
  b ≤ length (heap st) →
  update_nova_model W desimp a d st = (r, st') → extends b st st'.
Proof.
  intros Hd Hk Hc Hnb Hb. rewrite (update_nova_model_bound _ _ _ _ _ _ Hk Hc).
  apply pres_bind; [apply pres_fields_to_populate | | exact Hb].
  intros obj. apply pres_populate; auto.
Qed.

(** [spawn_empty_model] on a key that the cache does not hold: it raises or
    returns [None] without any effect, or allocates the next object and binds
    the key to it. *)
Lemma spawn_empty_model_run a d key st r st1 :
  get_key W a d = inr key →
  cache st !! key = None →
  spawn_empty_model W a d st = (r, st1) →
  (st1 = st ∧ (r = Ok VNone ∨ ∃ e, r = Raise e)) ∨
  (∃ c, r = Ok (VObj (length (heap st))) ∧
        st1 = set_cache (<[key := VObj (length (heap st))]> (cache st))
                (set_heap (heap st ++ [{| m_class := c; m_attrs := ∅ |}]) st)).
Proof.
  intros Hk Hc. unfold spawn_empty_model. rewrite Hk. simpl.
  unfold read_model_class_name, bind at 1.
  destruct (dict_get "novabase_classname" d) as [mcn |];
    [| destruct (dict_get "metadata_novabase_classname" d) as [mcn |]];
    simpl; try solve [intros H; inversion H; subst; left; eauto].
  all: destruct (is_None mcn);
    [solve [intros H; inversion H; subst; left; eauto] |].
  all: unfold instantiate, bind at 1;
    destruct (get_model_class_from_name W mcn) as [c |]; simpl;
    [| solve [intros H; inversion H; subst; left; eauto]].
  all: unfold bind, cache_has_key, gets, cache_store, modify, cache_lookup, ret; simpl.
  all: rewrite Hc; rewrite bool_decide_eq_false_2 by (intros [? ?]; congruence).
  all: simpl; rewrite lookup_insert_eq.
  all: intros H; inversion H; subst; right; eauto.
Qed.

Lemma spawned_extends b key st m st2 :
  b ≤ length (heap st) →
  cache st !! key = None → spawned key st m st2 →
  extends b st st2 ∧ cache st2 !! key = Some m ∧ not_below b m.
Proof.
  intros Hb Hc [[-> ->] | (c & -> & ->)]; simpl.
  - split; [apply extends_cache_fresh; exact Hc |].
    split; [apply lookup_insert_eq | exact I].
  - split; [| split; [apply lookup_insert_eq | exact Hb]].
    eapply extends_trans; [apply extends_set_heap_app; exact Hb |].
    apply (extends_cache_fresh b (set_heap _ st)). exact Hc.
Qed.

Lemma novabase_desimplify_hit desimp a d key v st :
  get_key W a d = inr key → cache st !! key = Some v →
  novabase_desimplify W desimp a d st = (Ok v, st).
Proof.
  intros Hk Hc. unfold novabase_desimplify. rewrite Hk.
  unfold lift_sum, bind, cache_has_key, gets, cache_lookup, ret. simpl.
  rewrite Hc. rewrite bool_decide_eq_true_2 by eauto. simpl.
  rewrite Hc. reflexivity.
Qed.

Lemma novabase_desimplify_fresh desimp a d key st r st' :
  (∀ v, pres 0 (desimp v)) →
  get_key W a d = inr key → cache st !! key = None →
  novabase_desimplify W desimp a d st = (r, st') →
  (st' = st ∧ ∃ e, r = Raise e) ∨
  (∃ m st2 r2, spawned key st m st2 ∧
     update_nova_model W desimp a d st2 = (r2, st') ∧
     r = match r2 with
         | Ok _ => Ok m
         | Raise e => Raise e
         | OutOfFuel => OutOfFuel
         end).
Proof.
  intros Hd Hk Hc. unfold novabase_desimplify. rewrite Hk.
  unfold lift_sum, bind, ret, cache_has_key, gets, cache_store, modify,
    cache_lookup. simpl.
  rewrite Hc. rewrite bool_decide_eq_false_2 by (intros [? ?]; congruence).
  destruct (spawn_empty_model W a d st) as [rs st1] eqn:Hs.
  destruct (spawn_empty_model_run _ _ _ _ _ _ Hk Hc Hs)
    as [(-> & [-> | (e & ->)]) | (c & -> & ->)];
    [| intros H; inversion H; subst; left; eauto |].
  - set (st2 := set_cache (<[key := VNone]> (cache st)) st).
    assert (Hsp : spawned key st VNone st2) by (left; auto).
    clearbody st2. revert Hsp. generalize VNone. intros m Hsp.
    destruct (spawned_extends 0 _ _ _ _ (Nat.le_0_l _) Hc Hsp) as (_ & Hk2 & Hnb).
    destruct (update_nova_model W desimp a d st2) as [r2 st3] eqn:Hu.
    pose proof (update_nova_model_extends 0 _ _ _ _ _ _ _ _ Hd Hk Hk2 Hnb
                  (Nat.le_0_l _) Hu) as Hext.
    intros H. right. exists m, st2, r2. split; [exact Hsp |].
    destruct r2; simpl in H;
      [rewrite (lookup_weaken _ _ _ _ Hk2 (ext_cache _ _ _ Hext)) in H | |];
      inversion H; subst; auto.
  - match goal with |- context [update_nova_model _ _ _ _ ?s] =>
      set (st2 := s) end.
    assert (Hsp : spawned key st (VObj (length (heap st))) st2).
    { right. exists c. split; [reflexivity |].
      unfold st2, set_cache, set_heap. simpl. rewrite insert_insert_eq.
      reflexivity. }
    clearbody st2. revert Hsp. generalize (VObj (length (heap st))). intros m Hsp.
    destruct (spawned_extends 0 _ _ _ _ (Nat.le_0_l _) Hc Hsp) as (_ & Hk2 & Hnb).
    destruct (update_nova_model W desimp a d st2) as [r2 st3] eqn:Hu.
    pose proof (update_nova_model_extends 0 _ _ _ _ _ _ _ _ Hd Hk Hk2 Hnb
                  (Nat.le_0_l _) Hu) as Hext.
    intros H. right. exists m, st2, r2. split; [exact Hsp |].
    destruct r2; simpl in H;
      [rewrite (lookup_weaken _ _ _ _ Hk2 (ext_cache _ _ _ Hext)) in H | |];
      inversion H; subst; auto.
Qed.

Lemma pres_novabase_desimplify b desimp a d :
  (∀ b' v, pres b' (desimp v)) → pres b (novabase_desimplify W desimp a d).
Proof.
  intros Hd st r st' Hb H.
  destruct (get_key W a d) as [e | key] eqn:Hk.
  { unfold novabase_desimplify in H. rewrite Hk in H. inversion H.
    apply extends_refl. }
  destruct (cache st !! key) as [v |] eqn:Hc.
  - rewrite (novabase_desimplify_hit _ _ _ _ _ _ Hk Hc) in H.
    inversion H. apply extends_refl.
  - destruct (novabase_desimplify_fresh _ _ _ _ _ _ _ (Hd 0) Hk Hc H)
      as [(-> & _) | (m & st2 & r2 & Hsp & Hu & _)].
    + apply extends_refl.
    + destruct (spawned_extends b _ _ _ _ Hb Hc Hsp) as (E1 & Hk2 & Hnb).
      eapply extends_trans; [exact E1 |].
      eapply update_nova_model_extends; try eassumption; [apply Hd |].
      pose proof (ext_heap_len _ _ _ E1). lia.
Qed.

Lemma pres_datetime_desimplify b d : pres b (datetime_desimplify W d).
Proof.
  unfold datetime_desimplify.
  apply pres_bind; [apply pres_subscript |]. intros v.
  apply pres_bind; [auto with pres |]. intros t.
  apply pres_bind; [apply pres_subscript | auto with pres].
Qed.

Lemma pres_ipnetwork_desimplify b d : pres b (ipnetwork_desimplify W d).
Proof.
  unfold ipnetwork_desimplify.
  apply pres_bind; [apply pres_subscript |]. intros v.
  apply pres_bind; auto with pres.
Qed.

Lemma pres_dispatch b desimp obj :
  (∀ b' v, pres b' (desimp v)) → pres b (dispatch W desimp obj).
Proof.
  intros Hd. unfold dispatch.
  destruct (is_dict_and_has_key obj "simplify_strategy").
  - destruct obj; auto with pres.
    apply pres_bind; [apply pres_subscript |]. intros s.
    apply pres_bind.
    { destruct (str_is "datetime" s); [apply pres_datetime_desimplify | auto with pres]. }
    intros r1. apply pres_bind.
    { destruct (str_is "ipnetwork" s); [apply pres_ipnetwork_desimplify | auto with pres]. }
    intros r2. destruct (str_is "novabase" s); auto with pres.
    apply pres_novabase_desimplify. exact Hd.
  - destruct obj; auto with pres.
    + apply pres_bind; [| auto with pres]. apply pres_map_M. auto.
    + destruct (has_key "novabase_classname" kvs);
        [apply pres_novabase_desimplify; exact Hd |].
      destruct (has_key "metadata_novabase_classname" kvs);
        [apply pres_novabase_desimplify; exact Hd | auto with pres].
Qed.

Lemma pres_final_hook b result : pres b (final_hook result).
Proof.
  unfold final_hook. apply pres_bind; [auto with pres |].
  intros nb. apply pres_bind; [| auto with pres].
  destruct nb; auto with pres.
Qed.

(** Every run of [desimplify], complete or not, extends the state and writes
    to no object that was there before. *)
Lemma pres_desimplify n : ∀ b obj, pres b (desimplify W n obj).
Proof.
  induction n as [| n IH]; intros b obj; simpl.
  - apply pres_out_of_fuel.
  - apply pres_bind; [apply pres_dispatch; exact IH |].
    intros result. apply (pres_final_hook b result).
Qed.

Lemma desimplify_extends n obj st r st' :
  desimplify W n obj st = (r, st') → extends (length (heap st)) st st'.
Proof. intros H. eapply pres_desimplify; [| exact H]. lia. Qed.

(** *** The final hook *)

(** [final_hook] returns its argument; it logs one call when the argument is
    a [NovaBase] object and does nothing else. *)
Lemma final_hook_run v st :
  final_hook v st = (Ok v, st) ∧ (∀ o, v = VObj o → is_novabase v st = (Ok false, st)) ∨
  ∃ o, v = VObj o ∧ is_novabase v st = (Ok true, st) ∧
       final_hook v st = (Ok v, log_hook o st).
Proof.
  destruct v; try (left; split; [reflexivity | discriminate]).
  destruct (is_novabase (VObj addr) st) as [r s] eqn:Hn.
  assert (Hr : ∃ nb, r = Ok nb ∧ s = st).
  { unfold is_novabase, gets in Hn. inversion Hn. eauto. }
  destruct Hr as (nb & -> & ->).
  unfold final_hook. rewrite (bind_ok _ _ _ _ _ Hn).
  destruct nb.
  - right. exists addr. split; [reflexivity |]. split; [reflexivity |].
    unfold update_foreign_keys. unfold bind at 1.
    rewrite (bind_ok _ _ _ _ _ Hn). reflexivity.
  - left. split; [reflexivity |]. intros o _. reflexivity.
Qed.

Lemma final_hook_ok v st r st' :
  final_hook v st = (r, st') → r = Ok v ∧ cache st' = cache st ∧ heap st' = heap st.
Proof.
  destruct (final_hook_run v st) as [[H _] | (o & _ & _ & H)];
    rewrite H; intros E; inversion E; subst; auto.
Qed.

(** *** Dispatch on mappings *)

Lemma str_is_true s v : str_is s v = true → v = VStr s.
Proof.
  destruct v; simpl; try discriminate. intros H.
  apply String.eqb_eq in H. congruence.
Qed.

Lemma dispatch_reconstructs desimp a d st :
  reconstructs d = true →
  dispatch W desimp (VDict a d) st = novabase_desimplify W desimp a d st.
Proof.
  unfold reconstructs, dispatch, is_dict_and_has_key, has_key, subscript.
  destruct (dict_get "simplify_strategy" d) as [s |] eqn:Hs.
  - intros H. apply str_is_true in H. subst s. reflexivity.
  - intros H. apply orb_true_iff in H.
    destruct (dict_get "novabase_classname" d); [reflexivity |].
    destruct (dict_get "metadata_novabase_classname" d); [reflexivity |].
    destruct H; discriminate.
Qed.

Lemma desimplify_reconstructs n a d st :
  reconstructs d = true →
  desimplify W (S n) (VDict a d) st = reconstruction W n a d st.
Proof.
  intros H. simpl. unfold reconstruction, bind.
  rewrite (dispatch_reconstructs _ _ _ _ H). reflexivity.
Qed.

(** A returned object is the one the cache binds to the key. *)
Lemma novabase_desimplify_ok desimp a d key st v st' :
  (∀ b x, pres b (desimp x)) →
  get_key W a d = inr key →
  novabase_desimplify W desimp a d st = (Ok v, st') →
  cache st' !! key = Some v.
Proof.
  intros Hd Hk H. destruct (cache st !! key) as [v0 |] eqn:Hc.
  - rewrite (novabase_desimplify_hit _ _ _ _ _ _ Hk Hc) in H.
    inversion H; subst. exact Hc.
  - destruct (novabase_desimplify_fresh _ _ _ _ _ _ _ (Hd 0) Hk Hc H)
      as [(_ & e & He) | (m & st2 & r2 & Hsp & Hu & Hr)]; [discriminate |].
    destruct (spawned_extends 0 _ _ _ _ (Nat.le_0_l _) Hc Hsp) as (_ & Hk2 & Hnb).
    pose proof (update_nova_model_extends 0 _ _ _ _ _ _ _ _ (Hd 0) Hk Hk2 Hnb
                  (Nat.le_0_l _) Hu) as E.
    destruct r2; inversion Hr; subst.
    eapply lookup_weaken; [exact Hk2 | apply (ext_cache _ _ _ E)].
Qed.

Lemma reconstruction_ok n a d key st v st' :
  get_key W a d = inr key →
  reconstruction W n a d st = (Ok v, st') →
  cache st' !! key = Some v.
Proof.
  intros Hk H. unfold reconstruction in H.
  apply bind_ok_inv in H as (x & s & H1 & H2).
  apply final_hook_ok in H2 as (E & Hc & _). inversion E; subst.
  rewrite Hc. eapply novabase_desimplify_ok; [| exact Hk | exact H1].
  intros b y. apply pres_desimplify.
Qed.

Lemma reconstruction_hit n a d key v st :
  get_key W a d = inr key → cache st !! key = Some v →
  ∃ st', reconstruction W n a d st = (Ok v, st').
Proof.
  intros Hk Hc. unfold reconstruction.
  rewrite (bind_ok _ _ _ _ _ (novabase_desimplify_hit _ _ _ _ _ _ Hk Hc)).
  destruct (final_hook_run v st) as [[H _] | (o & _ & _ & H)]; eauto.
Qed.

End EngineRuns.

(** ** The claims on the engine's dispatch *)

Section Dispatch.
Context (W : World).

(** C10.  A mapping with neither a strategy tag nor a class name field comes
    back as it is: same mapping, same state, for any fuel from one unit on,
    so nothing inside it is desimplified. *)
Theorem desimplify_plain_mapping n a d st :
  has_key "simplify_strategy" d = false →
  has_key "novabase_classname" d = false →
  has_key "metadata_novabase_classname" d = false →
  desimplify W (S n) (VDict a d) st = (Ok (VDict a d), st).
Proof.
  intros H1 H2 H3. simpl. unfold dispatch, is_dict_and_has_key.
  rewrite H1, H2, H3. reflexivity.
Qed.



End Dispatch.

(** C10 at a mapping that holds an object mapping: one unit of fuel is
    enough, and no object is created. *)
Lemma desimplify_plain_mapping_witness :
  desimplify empty_world 1 (VDict 5 plain_mapping) init_state
  = (Ok (VDict 5 plain_mapping), init_state).
Proof.
  apply (desimplify_plain_mapping empty_world 0 5 plain_mapping init_state);
    reflexivity.
Defined.





(** ** The claims on unresolvable types *)

(** Without either class name field, [spawn_empty_model] reads a name that
    was never bound. *)
Lemma spawn_without_classname W a d st :
  has_classname d = false →
  spawn_empty_model W a d st = (Raise unbound_model_class_name, st).
Proof.
  unfold has_classname, has_key, spawn_empty_model, read_model_class_name.
  destruct (dict_get "novabase_classname" d); [discriminate |].
  destruct (dict_get "metadata_novabase_classname" d); [discriminate |].
  reflexivity.
Qed.

(** C3, on the code.  A reference without class name field makes [desimplify]
    raise [UnboundLocalError]; a class name that is [None] makes
    [spawn_empty_model] return [None], and [desimplify] raise on the hook call;
    a class name that the registry does not know makes it raise when the
    sentinel is called. *)
Theorem unresolvable_type_raises :
  desimplify empty_world 2 (VDict 9 absent_classname) init_state
  = (Raise unbound_model_class_name, init_state) ∧
  spawn_empty_model empty_world 9 none_classname init_state
  = (Ok VNone, init_state) ∧
  (desimplify empty_world 2 (VDict 9 none_classname) init_state).1
  = Raise (no_attribute "NoneType" "update_foreign_keys") ∧
  (desimplify empty_world 2 (VDict 9 unknown_classname) init_state).1
  = Raise none_not_callable.
Proof. repeat split; vm_compute; reflexivity. Qed.

(** ** The claims on the lazy reference *)

Section Lazy.
Context (W : World).

Lemma pres_lazy_cache_lookup b key : pres b (lazy_cache_lookup key).
Proof.
  intros st r st' _ H. unfold lazy_cache_lookup in H.
  destruct (lazy_cache st !! key); inversion H; apply extends_refl.
Qed.

Lemma pres_lazy_spawn_empty_model b r obj :
  pres b (lazy_spawn_empty_model W r obj).
Proof.
  unfold lazy_spawn_empty_model. destruct obj as [[a d] |]; auto with pres.
  apply pres_bind; [apply pres_read_model_class_name |]. intros mcn.
  destruct (is_None mcn); auto with pres.
  apply pres_bind; [apply pres_instantiate |]. intros mo.
  intros st res st' _ H.
  unfold bind, lazy_cache_has_key, gets, lazy_cache_store, modify,
    lazy_cache_lookup, ret in H. simpl in H.
  case_bool_decide as Hc.
  - destruct Hc as [v Hc]. rewrite Hc in H. inversion H; subst. apply extends_refl.
  - simpl in H. rewrite lookup_insert_eq in H. inversion H; subst.
    apply extends_set_lazy_cache. apply eq_None_not_Some. exact Hc.
Qed.

Lemma pres_lazy_update_nova_model n r obj :
  pres 0 (lazy_update_nova_model W n r obj).
Proof.
  unfold lazy_update_nova_model.
  apply pres_bind; [apply pres_lazy_cache_lookup |]. intros cm.
  destruct obj as [[a d] |]; auto with pres.
  apply pres_bind.
  - unfold lazy_fields_to_populate. destruct (has_key _ d); auto with pres.
  - intros obj. apply pres_populate; [destruct cm; simpl; auto; lia |].
    intros v _. apply pres_desimplify.
Qed.

(** A lazy reference that is resolved answers from its memo, and the state
    stays as it is. *)
Lemma get_complex_ref_memo n r v st :
  lazy_cache st !! lazy_get_key W r = Some v →
  get_complex_ref W n r st = (Ok v, st).
Proof.
  intros H. unfold get_complex_ref, bind, lazy_cache_has_key, gets, ret,
    lazy_cache_lookup. simpl.
  rewrite H. rewrite bool_decide_eq_true_2 by eauto. simpl. rewrite H.
  reflexivity.
Qed.


(** C9.  [__str__] and [__repr__] return the tag made of the key of the
    reference and leave the state as it is: no fetch, no memo. *)
Theorem lazy_rendering_is_pure r st :
  lazy_str W r st = (Ok ("Lazy(" +:+ lazy_get_key W r +:+ ")"), st) ∧
  lazy_repr W r st = (Ok ("Lazy(" +:+ lazy_get_key W r +:+ ")"), st) ∧
  lazy_get_key W r
  = py_str W (get_model_classname_from_tablename W (base r)) +:+ "_" +:+ py_str W (id r).
Proof. repeat split. Qed.

End Lazy.



(** C7, on the code.  When the record of a lazy reference is itself tagged
    with a strategy, [LazyReference.update_nova_model] reads the unbound name
    [db_client]: the resolution raises [NameError] after the one fetch of
    [load], where the engine fetches the record and populates from it. *)
Theorem lazy_indirection_raises :
  (get_complex_ref indirect_world 3 lazy_one init_state).1
  = Raise db_client_undefined ∧
  dbClient_gets (get_complex_ref indirect_world 3 lazy_one init_state).2
  = [("instances", "1")] ∧
  (desimplify indirect_world 3 (VDict 1 (instance_ref 1)) init_state).1
  = Ok (VObj 0) ∧
  db_client_gets (desimplify indirect_world 3 (VDict 1 (instance_ref 1)) init_state).2
  = [("instances", "1")].
Proof. repeat split; vm_compute; reflexivity. Qed.

(** ** The claim on the relationship hook *)

Section Hook.
Context (W : World).

Lemma update_foreign_keys_ok cm sb st' :
  update_foreign_keys cm sb = (Ok tt, st') →
  ∃ o, cm = VObj o ∧ is_novabase cm sb = (Ok true, sb) ∧ st' = log_hook o sb.
Proof.
  destruct cm; try discriminate. intros H. exists addr.
  unfold update_foreign_keys in H.
  destruct (is_novabase (VObj addr) sb) as [r s] eqn:Hn.
  assert (Hr : ∃ nb, r = Ok nb ∧ s = sb).
  { unfold is_novabase, gets in Hn. inversion Hn. eauto. }
  destruct Hr as (nb & -> & ->). rewrite (bind_ok _ _ _ _ _ Hn) in H.
  destruct nb; [| discriminate]. inversion H. auto.
Qed.

(** A population that returns ended with the hook call on its object. *)
Lemma populate_ok desimp cm (obj : dict) st v st' :
  (∀ b x, pres b (desimp x)) →
  populate desimp cm obj st = (Ok v, st') →
  v = cm ∧ ∃ sb, extends 0 st sb ∧ update_foreign_keys cm sb = (Ok tt, st').
Proof.
  intros Hd H. unfold populate in H.
  apply bind_ok_inv in H as (u1 & s1 & H1 & H).
  apply bind_ok_inv in H as (u2 & s2 & H2 & H).
  apply bind_ok_inv in H as (u3 & s3 & H3 & H).
  apply bind_ok_inv in H as (u4 & s4 & H4 & H).
  inversion H; subst. split; [reflexivity |]. exists s3.
  destruct u4. split; [| exact H4].
  assert (Hnb : not_below 0 v) by (destruct v; simpl; auto; lia).
  eapply extends_trans; [| eapply extends_trans].
  - eapply pres_for_each; [| apply Nat.le_0_l | exact H1].
    intros kv _. apply pres_populate_field; [exact Hnb | apply Hd].
  - eapply pres_copy_scoping_field; [exact Hnb | apply Nat.le_0_l | exact H2].
  - eapply pres_copy_scoping_field; [exact Hnb | apply Nat.le_0_l | exact H3].
Qed.

Lemma fields_to_populate_hooks d st r st' :
  fields_to_populate W d st = (r, st') → extends 0 st st'.
Proof. intros H. eapply pres_fields_to_populate; [apply Nat.le_0_l | exact H]. Qed.

(** C4, amended.  A [desimplify] call that reconstructs an object afresh ends
    with two hook calls on it in a row, the one of [update_nova_model] and
    the one of [desimplify]; a call that finds a [NovaBase] object in the
    cache makes one hook call on it. *)
Theorem hook_after_reconstruction n a d key st o st' :
  reconstructs d = true → get_key W a d = inr key →
  desimplify W (S n) (VDict a d) st = (Ok (VObj o), st') →
  (cache st !! key = None →
   ∃ during, hooks st' = (hooks st ++ during ++ [o; o])%list) ∧
  (cache st !! key = Some (VObj o) →
   is_novabase (VObj o) st = (Ok true, st) →
   hooks st' = (hooks st ++ [o])%list).
Proof.
  intros Hr Hk H. rewrite (desimplify_reconstructs _ _ _ _ _ Hr) in H.
  unfold reconstruction in H. apply bind_ok_inv in H as (x & s & Hn & Hf).
  pose proof (final_hook_ok _ _ _ _ Hf) as (Ex & _ & Hheap).
  inversion Ex; subst x. clear Ex. split.
  - intros Hc.
    destruct (novabase_desimplify_fresh _ _ _ _ _ _ _ _ (fun x => pres_desimplify W n 0 x)
                Hk Hc Hn)
      as [(_ & e & He) | (m & st2 & r2 & Hsp & Hu & Hres)]; [discriminate |].
    destruct r2 as [v | |]; inversion Hres; subst m. clear Hres.
    destruct (spawned_extends 0 _ _ _ _ (Nat.le_0_l _) Hc Hsp) as (E1 & Hk2 & _).
    rewrite (update_nova_model_bound _ _ _ _ _ _ _ Hk Hk2) in Hu.
    apply bind_ok_inv in Hu as (obj & s3 & Hfields & Hp).
    pose proof (fields_to_populate_hooks _ _ _ _ Hfields) as E2.
    apply populate_ok in Hp as (_ & sb & E3 & Hh);
      [| intros b x; apply pres_desimplify].
    apply update_foreign_keys_ok in Hh as (o' & Eo & Hnb & ->).
    inversion Eo; subst o'. clear Eo.
    pose proof (extends_trans _ _ _ _ E1 (extends_trans _ _ _ _ E2 E3)) as E.
    destruct (ext_hooks _ _ _ E) as [during Hd].
    exists during.
    destruct (final_hook_run (VObj o) (log_hook o sb))
      as [[_ Hno] | (o' & Eo & _ & Hfin)].
    + specialize (Hno o eq_refl). unfold is_novabase, gets in Hno, Hnb.
      simpl in Hno. inversion Hno. inversion Hnb. congruence.
    + inversion Eo; subst o'. rewrite Hfin in Hf. inversion Hf; subst st'.
      simpl. rewrite Hd. rewrite <- !app_assoc. reflexivity.
  - intros Hc Hnb.
    rewrite (novabase_desimplify_hit _ _ _ _ _ _ _ Hk Hc) in Hn.
    inversion Hn; subst s.
    destruct (final_hook_run (VObj o) st) as [[_ Hno] | (o' & Eo & _ & Hfin)].
    + rewrite (Hno o eq_refl) in Hnb. discriminate.
    + inversion Eo; subst o'. rewrite Hfin in Hf. inversion Hf; subst st'.
      reflexivity.
Qed.

End Hook.

(** C4 as stated fails: one [desimplify] call on a fresh object mapping calls
    the hook of the reconstructed object twice. *)
Lemma hook_called_twice :
  (desimplify empty_world 2 (VDict 1 (instance_record 1 [])) init_state).1
  = Ok (VObj 0) ∧
  hooks (desimplify empty_world 2 (VDict 1 (instance_record 1 [])) init_state).2
  = [0; 0].
Proof. split; vm_compute; reflexivity. Qed.

(** C4, amended, on the same call. *)
Lemma hook_after_reconstruction_witness :
  ∃ during,
    hooks (desimplify empty_world 2 (VDict 1 (instance_record 1 [])) init_state).2
    = ([] ++ during ++ [0; 0])%list.
Proof.
  apply (hook_after_reconstruction empty_world 1 1 (instance_record 1 [])
           "instances-1" init_state 0
           (desimplify empty_world 2 (VDict 1 (instance_record 1 [])) init_state).2);
    vm_compute; reflexivity.
Defined.

(** ** Attributes that a run leaves alone *)

Section Attributes.
Context (W : World).

Lemma keeps_ret {A} o key (a : A) : keeps o key (ret a).
Proof. intros st r st' Ho H. inversion H; subst. auto. Qed.

Lemma keeps_raise {A} o key e : keeps o key (@raise A e).
Proof. intros st r st' Ho H. inversion H; subst. auto. Qed.

Lemma keeps_gets {A} o key (f : State → A) : keeps o key (gets f).
Proof. intros st r st' Ho H. inversion H; subst. auto. Qed.

Lemma keeps_bind {A B} o key (m : M A) (f : A → M B) :
  keeps o key m → (∀ a, keeps o key (f a)) → keeps o key (bind m f).
Proof.
  intros Hm Hf st r st' Ho H.
  apply bind_run in H as [(a & st1 & H1 & H2) | [(e & H1 & _) | (H1 & _)]].
  - destruct (Hm _ _ _ Ho H1) as [E1 Ho1].
    destruct (Hf a _ _ _ Ho1 H2) as [E2 Ho2]. split; [congruence | exact Ho2].
  - eapply Hm; eassumption.
  - eapply Hm; eassumption.
Qed.

Lemma keeps_try_except {A} o key (body : M A) (h : exn → M A) :
  keeps o key body → (∀ e, keeps o key (h e)) → keeps o key (try_except body h).
Proof.
  intros Hm Hh st r st' Ho H.
  apply try_except_run in H as [(e & st1 & H1 & H2) | (H1 & _)].
  - destruct (Hm _ _ _ Ho H1) as [E1 Ho1].
    destruct (Hh e _ _ _ Ho1 H2) as [E2 Ho2]. split; [congruence | exact Ho2].
  - eapply Hm; eassumption.
Qed.

Lemma keeps_for_each {A} o key (f : A → M unit) l :
  (∀ x, x ∈ l → keeps o key (f x)) → keeps o key (for_each f l).
Proof.
  induction l as [| x l IH]; intros H; simpl.
  - apply keeps_ret.
  - apply keeps_bind.
    + apply H. left.
    + intros _. apply IH. intros y Hy. apply H. right. exact Hy.
Qed.

(** What a run that writes to nothing below [b] keeps. *)
Lemma extends_attr b st st' o key :
  extends b st st' → o < b → attr st' o key = attr st o key.
Proof. intros E Ho. unfold attr. rewrite (ext_frame _ _ _ E o Ho). reflexivity. Qed.

Lemma keeps_desimplify o key n v : keeps o key (desimplify W n v).
Proof.
  intros st r st' Ho H. pose proof (desimplify_extends _ _ _ _ _ _ H) as E.
  split; [eapply extends_attr; eassumption |].
  pose proof (ext_heap_len _ _ _ E). lia.
Qed.

Lemma keeps_py_setattr o key target key' v :
  key ≠ key' → keeps o key (py_setattr target key' v).
Proof.
  intros Hne. destruct target; try apply keeps_raise.
  intros st r st' Ho H. simpl in H.
  destruct (heap st !! addr) as [m |] eqn:Hm; [| inversion H; subst; auto].
  destruct (mc_setattr (m_class m) key' v); inversion H; subst; [auto |].
  simpl. rewrite length_insert. split; [| exact Ho]. unfold attr. simpl.
  destruct (decide (addr = o)) as [-> | Hao].
  - rewrite list_lookup_insert_eq by exact Ho. rewrite Hm. simpl.
    apply lookup_insert_ne. congruence.
  - rewrite list_lookup_insert_ne by exact Hao. reflexivity.
Qed.

Lemma keeps_py_hasattr o key target name : keeps o key (py_hasattr target name).
Proof. destruct target; try apply keeps_ret. apply keeps_gets. Qed.

Lemma keeps_update_foreign_keys o key target :
  keeps o key (update_foreign_keys target).
Proof.
  destruct target; try apply keeps_raise.
  apply keeps_bind; [apply keeps_gets |].
  intros [|]; [| apply keeps_raise].
  intros st r st' Ho H. inversion H; subst. auto.
Qed.

Lemma keeps_populate_field o key n cm key' raw :
  key ≠ key' → keeps o key (populate_field (desimplify W n) cm (key', raw)).
Proof.
  intros Hne. simpl. apply keeps_bind; [apply keeps_desimplify |]. intros sv.
  apply keeps_try_except.
  - destruct (negb (is_None sv)); [| apply keeps_py_setattr; exact Hne].
    apply keeps_bind; [apply keeps_desimplify |].
    intros v. apply keeps_py_setattr. exact Hne.
  - intros e. destruct (str_contains _ _);
      [apply keeps_py_setattr; exact Hne | apply keeps_ret].
Qed.

Lemma keeps_copy_scoping_field o key cm (d : dict) name :
  key ≠ name → keeps o key (copy_scoping_field cm d name).
Proof.
  intros Hne. unfold copy_scoping_field.
  apply keeps_bind; [apply keeps_py_hasattr |].
  intros [|]; [| apply keeps_ret].
  destruct (dict_get name d); [apply keeps_py_setattr; exact Hne | apply keeps_ret].
Qed.

Lemma keeps_fields o key n cm (l : dict) :
  key ∉ l.*1 → keeps o key (for_each (populate_field (desimplify W n) cm) l).
Proof.
  intros Hk. apply keeps_for_each. intros [key' raw] Hin.
  apply keeps_populate_field. intros ->. apply Hk.
  apply list_elem_of_fmap. exists (key', raw). auto.
Qed.

Lemma keeps_final_hook o key v : keeps o key (final_hook v).
Proof.
  intros st r st' Ho H. apply final_hook_ok in H as (_ & _ & Hh).
  unfold attr. rewrite Hh. auto.
Qed.

(** *** Assignments *)

Lemma py_setattr_run o key v st m :
  heap st !! o = Some m →
  match mc_setattr (m_class m) key v with
  | Some e => py_setattr (VObj o) key v st = (Raise e, st)
  | None =>
      ∃ st', py_setattr (VObj o) key v st = (Ok tt, st') ∧
             attr st' o key = Some v ∧ extends 0 st st'
  end.
Proof.
  intros Hm. simpl. rewrite Hm. destruct (mc_setattr (m_class m) key v).
  - reflexivity.
  - eexists. split; [reflexivity |]. split.
    + unfold attr. simpl.
      rewrite list_lookup_insert_eq by (eapply lookup_lt_Some; exact Hm).
      simpl. apply lookup_insert_eq.
    + apply extends_setattr; [lia | exact Hm].
Qed.

(** [desimplify] on [None]. *)
Lemma desimplify_None n st r st' :
  desimplify W n VNone st = (r, st') →
  st' = st ∧ (r = Ok VNone ∨ r = OutOfFuel).
Proof. destruct n; simpl; intros H; inversion H; auto. Qed.

End Attributes.

(** ** The claim on assignment failures *)

Section Assignment.
Context (W : World).

Lemma try_except_raise {A} (body : M A) (h : exn → M A) st e s :
  body st = (Raise e, s) → try_except body h st = h e s.
Proof. unfold try_except. intros ->. reflexivity. Qed.

Lemma try_except_ok {A} (body : M A) (h : exn → M A) st a s :
  body st = (Ok a, s) → try_except body h st = (Ok a, s).
Proof. unfold try_except. intros ->. reflexivity. Qed.

Lemma has_class_extends b st st' o c :
  extends b st st' → has_class st o c → has_class st' o c.
Proof.
  intros E (m & Hm & Hc). destruct (ext_heap_class _ _ _ E o m Hm) as (m' & Hm' & Hc').
  exists m'. split; [exact Hm' | congruence].
Qed.

(** The handler of the loop, after an assignment raised [e]. *)
Lemma handler_run o c key e st r st' :
  has_class st o c →
  (if str_contains list_like_marker (exn_msg e)
   then py_setattr (VObj o) key (VList [])
   else ret tt) st = (r, st') →
  (r = Ok tt ∨
   ∃ e', str_contains list_like_marker (exn_msg e) = true ∧
         mc_setattr c key (VList []) = Some e' ∧ r = Raise e') ∧
  (r = Ok tt → str_contains list_like_marker (exn_msg e) = true →
   attr st' o key = Some (VList [])).
Proof.
  intros (m & Hm & <-) H. destruct (str_contains list_like_marker (exn_msg e)).
  - pose proof (py_setattr_run o key (VList []) st m Hm) as Hs.
    destruct (mc_setattr (m_class m) key (VList [])) as [e' |].
    + rewrite Hs in H. inversion H; subst.
      split; [right; exists e'; repeat split | discriminate].
    + destruct Hs as (s & Hs & Ha & _). rewrite Hs in H. inversion H; subst.
      split; [left; reflexivity | auto].
  - inversion H; subst. split; [left; reflexivity | discriminate].
Qed.

(** One assignment under the [try], after it. *)
Lemma assignment_run o c key v st r st' :
  has_class st o c →
  try_except (py_setattr (VObj o) key v)
    (fun e => if str_contains list_like_marker (exn_msg e)
              then py_setattr (VObj o) key (VList [])
              else ret tt) st = (r, st') →
  (r = Ok tt ∨
   ∃ e e', mc_setattr c key v = Some e ∧
           str_contains list_like_marker (exn_msg e) = true ∧
           mc_setattr c key (VList []) = Some e' ∧ r = Raise e') ∧
  (r = Ok tt → ∀ e, mc_setattr c key v = Some e →
   str_contains list_like_marker (exn_msg e) = true →
   attr st' o key = Some (VList [])).
Proof.
  intros Hc H. pose proof Hc as (m & Hm & Ec).
  pose proof (py_setattr_run o key v st m Hm) as Hs. rewrite Ec in Hs.
  destruct (mc_setattr c key v) as [e0 |].
  - rewrite (try_except_raise _ _ _ _ _ Hs) in H.
    destruct (handler_run _ _ _ _ _ _ _ Hc H) as [H1 H2].
    split.
    + destruct H1 as [H1 | (e' & Hmark & He' & H1)]; [left; exact H1 |].
      right. exists e0, e'. repeat split; assumption.
    + intros Hr e Ee Hmark. inversion Ee; subst e0. auto.
  - destruct Hs as (s & Hs & _). rewrite (try_except_ok _ _ _ _ _ Hs) in H.
    inversion H; subst. split; [left; reflexivity | discriminate].
Qed.

Lemma populate_field_policy n o c key raw st r st' :
  has_class st o c →
  (∀ st1, extends 0 st st1 → ∃ v st2, desimplify W n raw st1 = (Ok v, st2)) →
  populate_field (desimplify W n) (VObj o) (key, raw) st = (r, st') →
  extends 0 st st' ∧
  (r = Ok tt ∨
   ∃ v e e',
     (v = raw ∨ ∃ s s', extends 0 st s ∧ desimplify W n raw s = (Ok v, s')) ∧
     mc_setattr c key v = Some e ∧
     str_contains list_like_marker (exn_msg e) = true ∧
     mc_setattr c key (VList []) = Some e' ∧ r = Raise e') ∧
  (r = Ok tt → raw = VNone → ∀ e, mc_setattr c key VNone = Some e →
   str_contains list_like_marker (exn_msg e) = true →
   attr st' o key = Some (VList [])).
Proof.
  intros Hc Hd H. split.
  { eapply (pres_populate_field 0 _ (VObj o) (key, raw));
      [simpl; lia | apply pres_desimplify | apply Nat.le_0_l | exact H]. }
  simpl in H.
  destruct (Hd st (extends_refl 0 st)) as (sv & s1 & H1).
  rewrite (bind_ok _ _ _ _ _ H1) in H.
  assert (E1 : extends 0 st s1).
  { eapply pres_desimplify; [apply Nat.le_0_l | exact H1]. }
  pose proof (has_class_extends _ _ _ _ _ E1 Hc) as Hc1.
  destruct (is_None sv) eqn:Hsv; simpl in H.
  - destruct (assignment_run _ _ _ _ _ _ _ Hc1 H) as [A1 A2].
    split.
    + destruct A1 as [A1 | (e & e' & X1 & X2 & X3 & A1)]; [left; exact A1 |].
      right. exists raw, e, e'. split; [left; reflexivity |].
      repeat split; assumption.
    + intros Hr -> e He Hm. eauto.
  - destruct (Hd s1 E1) as (v & s2 & H2).
    assert (E2 : extends 0 s1 s2).
    { eapply pres_desimplify; [apply Nat.le_0_l | exact H2]. }
    pose proof (has_class_extends _ _ _ _ _ E2 Hc1) as Hc2.
    assert (Hbody : ∀ h, try_except (v0 <- desimplify W n raw;;
                                     py_setattr (VObj o) key v0) h s1
                         = try_except (py_setattr (VObj o) key v) h s2).
    { intros h. unfold try_except. rewrite (bind_ok _ _ _ _ _ H2). reflexivity. }
    rewrite Hbody in H.
    destruct (assignment_run _ _ _ _ _ _ _ Hc2 H) as [A1 _].
    split.
    + destruct A1 as [A1 | (e & e' & X1 & X2 & X3 & A1)]; [left; exact A1 |].
      right. exists v, e, e'. split; [right; exists s1, s2; split; assumption |].
      repeat split; assumption.
    + intros _ ->.
      apply desimplify_None in H1 as (_ & [E | E]); inversion E; subst.
      discriminate.
Qed.


End Assignment.



(** ** Termination *)

Section Termination.
Context (W : World).

Lemma finishes_bind {A B} (m : M A) (f : A → M B) st :
  finishes m st →
  (∀ a st1, m st = (Ok a, st1) → finishes (f a) st1) →
  finishes (bind m f) st.
Proof.
  unfold finishes, bind. intros Hm Hf.
  destruct (m st) as [[a | e |] st1]; simpl in *; [| discriminate | congruence].
  apply Hf. reflexivity.
Qed.

Lemma finishes_try_except {A} (body : M A) (h : exn → M A) st :
  finishes body st →
  (∀ e st1, body st = (Raise e, st1) → finishes (h e) st1) →
  finishes (try_except body h) st.
Proof.
  unfold finishes, try_except. intros Hm Hh.
  destruct (body st) as [[a | e |] st1]; simpl in *; [discriminate | | congruence].
  apply Hh. reflexivity.
Qed.

Lemma total_ret {A} (a : A) : total (ret a).
Proof. intros st. discriminate. Qed.

Lemma total_raise {A} e : total (@raise A e).
Proof. intros st. discriminate. Qed.

Lemma total_gets {A} (f : State → A) : total (gets f).
Proof. intros st. discriminate. Qed.

Lemma total_modify f : total (modify f).
Proof. intros st. discriminate. Qed.

Lemma total_lift_sum {A} (x : exn + A) : total (lift_sum x).
Proof. destruct x; [apply total_raise | apply total_ret]. Qed.

Lemma total_bind {A B} (m : M A) (f : A → M B) :
  total m → (∀ a, total (f a)) → total (bind m f).
Proof. intros Hm Hf st. apply finishes_bind; [apply Hm |]. intros a st1 _. apply Hf. Qed.

Lemma total_py_setattr target key v : total (py_setattr target key v).
Proof.
  destruct target; try apply total_raise. intros st. unfold finishes. simpl.
  destruct (heap st !! addr) as [m |]; [| discriminate].
  destruct (mc_setattr (m_class m) key v); discriminate.
Qed.

Lemma total_py_hasattr target key : total (py_hasattr target key).
Proof. destruct target; try apply total_ret. apply total_gets. Qed.

Lemma total_is_novabase v : total (is_novabase v).
Proof. destruct v; try apply total_ret. apply total_gets. Qed.

Lemma total_update_foreign_keys target : total (update_foreign_keys target).
Proof.
  destruct target; try apply total_raise.
  apply total_bind; [apply total_is_novabase |].
  intros [|]; [apply total_modify | apply total_raise].
Qed.

Lemma total_final_hook v : total (final_hook v).
Proof.
  intros st. unfold finishes.
  destruct (final_hook v st) as [r s] eqn:H.
  apply final_hook_ok in H as (-> & _). discriminate.
Qed.

Lemma total_cache_lookup key : total (cache_lookup key).
Proof.
  intros st. unfold finishes, cache_lookup. destruct (cache st !! key); discriminate.
Qed.

Lemma total_subscript d k : total (subscript d k).
Proof. unfold subscript. destruct (dict_get k d); [apply total_ret | apply total_raise]. Qed.

Create HintDb total discriminated.
#[local] Hint Resolve total_ret total_raise total_gets total_modify total_lift_sum
  total_py_setattr total_py_hasattr total_is_novabase total_update_foreign_keys
  total_final_hook total_cache_lookup total_subscript : total.

Lemma total_spawn_empty_model a d : total (spawn_empty_model W a d).
Proof.
  unfold spawn_empty_model. apply total_bind.
  { unfold read_model_class_name.
    destruct (dict_get "novabase_classname" d); auto with total.
    destruct (dict_get "metadata_novabase_classname" d); auto with total. }
  intros mcn. destruct (is_None mcn); auto with total.
  apply total_bind.
  { unfold instantiate. destruct (get_model_class_from_name W mcn); auto with total.
    intros st. discriminate. }
  intros mo. apply total_bind; [auto with total |]. intros key.
  apply total_bind; [apply total_gets |]. intros present.
  apply total_bind.
  { destruct present; auto with total.
    apply total_bind; [auto with total |]. intros k. apply total_modify. }
  intros _. apply total_bind; auto with total.
Qed.

Lemma total_fields_to_populate d : total (fields_to_populate W d).
Proof.
  unfold fields_to_populate. destruct (has_key "simplify_strategy" d); auto with total.
  apply total_bind; [auto with total |]. intros table.
  apply total_bind; [destruct table; simpl; auto with total |]. intros t.
  apply total_bind; [auto with total |]. intros i.
  apply total_bind; [apply total_bind; [apply total_modify | auto with total] |].
  intros [[a' d'] |]; auto with total.
Qed.

Lemma total_copy_scoping_field cm d name : total (copy_scoping_field cm d name).
Proof.
  unfold copy_scoping_field. apply total_bind; [auto with total |].
  intros [|]; auto with total. destruct (dict_get name d); auto with total.
Qed.

Lemma total_datetime_desimplify d : total (datetime_desimplify W d).
Proof.
  unfold datetime_desimplify.
  apply total_bind; [auto with total |]. intros v.
  apply total_bind; [auto with total |]. intros t.
  apply total_bind; auto with total.
Qed.

Lemma total_ipnetwork_desimplify d : total (ipnetwork_desimplify W d).
Proof.
  unfold ipnetwork_desimplify.
  apply total_bind; [auto with total |]. intros v.
  apply total_bind; auto with total.
Qed.

Lemma finishes_from_extends desimp st st1 raw :
  extends 0 st st1 → finishes_from desimp st raw → finishes_from desimp st1 raw.
Proof. intros E H st' E'. apply H. eapply extends_trans; eassumption. Qed.

Lemma run_extends {A} (m : M A) st r st' :
  pres 0 m → m st = (r, st') → extends 0 st st'.
Proof. intros H E. eapply H; [apply Nat.le_0_l | exact E]. Qed.

Lemma finishes_populate_field desimp cm key raw st :
  (∀ b x, pres b (desimp x)) →
  finishes_from desimp st raw →
  finishes (populate_field desimp cm (key, raw)) st.
Proof.
  intros Hp Hd. simpl. apply finishes_bind; [apply Hd; apply extends_refl |].
  intros sv s1 H1. pose proof (run_extends _ _ _ _ (Hp 0 raw) H1) as E1.
  apply finishes_try_except.
  - destruct (negb (is_None sv)); [| apply total_py_setattr].
    apply finishes_bind; [apply Hd; exact E1 |].
    intros v s2 _. apply total_py_setattr.
  - intros e s2 _. destruct (str_contains _ _);
      [apply total_py_setattr | apply total_ret].
Qed.

Lemma finishes_fields desimp cm (obj : dict) st :
  (∀ b x, pres b (desimp x)) →
  (∀ raw, raw ∈ obj.*2 → finishes_from desimp st raw) →
  finishes (for_each (populate_field desimp cm) obj) st.
Proof.
  intros Hp. revert st. induction obj as [| [key raw] rest IH]; intros st Hd; simpl.
  - apply total_ret.
  - apply finishes_bind.
    + apply finishes_populate_field; [exact Hp |]. apply Hd. left.
    + intros u s1 H1. apply IH. intros raw' Hin.
      eapply finishes_from_extends; [| apply Hd; right; exact Hin].
      apply (run_extends (populate_field desimp cm (key, raw)) st (Ok u) s1);
        [| exact H1].
      apply pres_populate_field; [destruct cm; simpl; auto; lia | apply Hp].
Qed.

Lemma finishes_populate desimp cm (obj : dict) st :
  (∀ b x, pres b (desimp x)) →
  (∀ raw, raw ∈ obj.*2 → finishes_from desimp st raw) →
  finishes (populate desimp cm obj) st.
Proof.
  intros Hp Hd. unfold populate.
  apply finishes_bind; [apply finishes_fields; assumption |].
  intros _ s1 _. apply total_bind; [apply total_copy_scoping_field |].
  intros _. apply total_bind; [apply total_copy_scoping_field |].
  intros _. apply total_bind; auto with total.
Qed.

Lemma finishes_map_M desimp (items : list value) st :
  (∀ b x, pres b (desimp x)) →
  (∀ raw, raw ∈ items → finishes_from desimp st raw) →
  finishes (map_M desimp items) st.
Proof.
  intros Hp. revert st. induction items as [| x items IH]; intros st Hd; simpl.
  - apply total_ret.
  - apply finishes_bind; [apply Hd; [left | apply extends_refl] |].
    intros y s1 H1. apply finishes_bind.
    + apply IH. intros raw Hin.
      eapply finishes_from_extends; [| apply Hd; right; exact Hin].
      eapply run_extends; [apply Hp | exact H1].
    + intros ys s2 _. apply total_ret.
Qed.

(** *** The measure *)

Lemma list_max_elem (x : nat) l : x ∈ l → x ≤ list_max l.
Proof.
  induction l as [| y l IH]; intros H.
  - inversion H.
  - apply elem_of_cons in H as [-> | H]; simpl; [lia |].
    specialize (IH H). lia.
Qed.

Lemma height_item x items : x ∈ items → height x < height (VList items).
Proof.
  intros H. simpl. apply Nat.lt_succ_r. apply list_max_elem.
  apply list_elem_of_fmap. eauto.
Qed.

Lemma height_field a (d : dict) raw : raw ∈ d.*2 → height raw < height (VDict a d).
Proof.
  intros H. simpl. apply Nat.lt_succ_r. apply list_max_elem.
  apply list_elem_of_fmap in H as ([k v] & -> & Hin).
  apply list_elem_of_fmap. exists (k, v). auto.
Qed.

Lemma height_record bk a (d : dict) :
  riak_data W !! bk = Some (a, d) → height (VDict a d) ≤ store_height W.
Proof.
  intros H. unfold store_height. apply list_max_elem.
  apply list_elem_of_fmap. exists (bk, (a, d)). split; [reflexivity |].
  apply elem_of_map_to_list. exact H.
Qed.

Lemma pending_mono st st' : extends 0 st st' → pending W st' ≤ pending W st.
Proof.
  intros E. unfold pending. apply subseteq_size.
  pose proof (subseteq_dom _ _ (ext_cache _ _ _ E)). set_solver.
Qed.

Lemma pending_decr key st st' :
  key ∈ fetch_keys W → cache st !! key = None → is_Some (cache st' !! key) →
  extends 0 st st' → pending W st' < pending W st.
Proof.
  intros Hk Hn Hs E. unfold pending. apply subset_size.
  pose proof (subseteq_dom _ _ (ext_cache _ _ _ E)) as Hdom.
  apply elem_of_dom in Hs. apply not_elem_of_dom in Hn.
  split; [set_solver |]. intros Hsub.
  assert (key ∈ fetch_keys W ∖ dom (cache st')) by set_solver. set_solver.
Qed.

(** *** The record behind a mapping *)

Lemma fields_to_populate_ok d st obj st' :
  fields_to_populate W d st = (Ok obj, st') → record_of W d = Some obj.
Proof.
  unfold fields_to_populate, record_of, subscript.
  destruct (has_key "simplify_strategy" d); [| intros H; inversion H; reflexivity].
  intros H.
  apply bind_ok_inv in H as (t & s1 & H1 & H).
  destruct (dict_get "tablename" d) as [t' |]; inversion H1; subst t' s1. clear H1.
  apply bind_ok_inv in H as (b & s1 & H1 & H).
  destruct t; inversion H1; subst b s1. clear H1.
  apply bind_ok_inv in H as (i & s1 & H1 & H).
  destruct (dict_get "id" d) as [i' |]; inversion H1; subst i' s1. clear H1.
  apply bind_ok_inv in H as (rv & s1 & Hf & H).
  apply bind_ok_inv in Hf as (u & s2 & _ & Hf). inversion Hf; subst rv s1.
  destruct (riak_data W !! (s, py_str W i)) as [[a' d'] |]; [| discriminate].
  inversion H; subst. reflexivity.
Qed.

(** Under a strategy tag the record is one of the store, filed under the key
    of the mapping. *)
Lemma record_of_fetched a d obj key :
  has_key "simplify_strategy" d = true →
  record_of W d = Some obj → get_key W a d = inr key →
  key ∈ fetch_keys W ∧ ∃ a', height (VDict a' obj) ≤ store_height W.
Proof.
  unfold record_of, get_key. intros ->.
  destruct (dict_get "tablename" d) as [[] |]; try discriminate.
  destruct (dict_get "id" d) as [i |]; [| discriminate].
  destruct (riak_data W !! (s, py_str W i)) as [[a' d'] |] eqn:Hr; [| discriminate].
  simpl. intros H1 H2. inversion H1; subst d'. inversion H2; subst key. split.
  - unfold fetch_keys. apply elem_of_map. exists (s, py_str W i).
    split; [reflexivity |]. apply elem_of_dom. eauto.
  - exists a'. eapply height_record. exact Hr.
Qed.

Lemma record_of_inline d obj :
  has_key "simplify_strategy" d = false → record_of W d = Some obj → obj = d.
Proof. unfold record_of. intros ->. congruence. Qed.

(** *** The engine finishes *)

Lemma novabase_desimplify_finishes desimp a d st :
  (∀ b x, pres b (desimp x)) →
  (∀ key obj raw st2,
     get_key W a d = inr key → cache st !! key = None →
     record_of W d = Some obj → raw ∈ obj.*2 →
     extends 0 st st2 → is_Some (cache st2 !! key) →
     finishes_from desimp st2 raw) →
  finishes (novabase_desimplify W desimp a d) st.
Proof.
  intros Hp Hd. unfold finishes.
  destruct (novabase_desimplify W desimp a d st) as [r st'] eqn:H. simpl.
  destruct (get_key W a d) as [e | key] eqn:Hk.
  { unfold novabase_desimplify in H. rewrite Hk in H. inversion H. discriminate. }
  destruct (cache st !! key) as [v |] eqn:Hc.
  { rewrite (novabase_desimplify_hit _ _ _ _ _ _ _ Hk Hc) in H. inversion H.
    discriminate. }
  destruct (novabase_desimplify_fresh _ _ _ _ _ _ _ _ (Hp 0) Hk Hc H)
    as [(_ & e & ->) | (m & st2 & r2 & Hsp & Hu & ->)]; [discriminate |].
  destruct (spawned_extends 0 _ _ _ _ (Nat.le_0_l _) Hc Hsp) as (E1 & Hk2 & _).
  assert (Hfin : finishes (update_nova_model W desimp a d) st2).
  { unfold finishes. rewrite (update_nova_model_bound _ _ _ _ _ _ _ Hk Hk2).
    apply finishes_bind; [apply total_fields_to_populate |].
    intros obj s3 Hf. apply finishes_populate; [exact Hp |].
    intros raw Hin.
    pose proof (run_extends _ _ _ _ (pres_fields_to_populate W 0 d) Hf) as E2.
    eapply (Hd key obj raw s3); eauto.
    - eapply fields_to_populate_ok. exact Hf.
    - eapply extends_trans; eassumption.
    - exists m. eapply lookup_weaken; [exact Hk2 | apply (ext_cache _ _ _ E2)]. }
  unfold finishes in Hfin. rewrite Hu in Hfin. simpl in Hfin.
  destruct r2; [discriminate | discriminate | congruence].
Qed.

Lemma fuel_for_child h h' p p' D n :
  h' < h → p' ≤ p → S (h + p * S D) ≤ S n → S (h' + p' * S D) ≤ n.
Proof. intros. assert (p' * S D ≤ p * S D) by (apply Nat.mul_le_mono_r; lia). lia. Qed.

Lemma fuel_for_record h h' hr p p' D n :
  h' < hr → hr ≤ D → p' < p → S (h + p * S D) ≤ S n → S (h' + p' * S D) ≤ n.
Proof.
  intros. assert (S p' * S D ≤ p * S D) by (apply Nat.mul_le_mono_r; lia).
  simpl in *. lia.
Qed.

(** With [enough_fuel], [desimplify] runs to its end: it returns or raises. *)
Lemma desimplify_finishes n : ∀ v st,
  enough_fuel W v st ≤ n → finishes (desimplify W n v) st.
Proof.
  induction n as [| n IH]; intros v st Hfuel.
  { unfold enough_fuel in Hfuel. lia. }
  simpl. apply finishes_bind; [| intros r s _; apply total_final_hook].
  assert (Hp : ∀ b x, pres b (desimplify W n x)) by (intros; apply pres_desimplify).
  assert (Hnova : ∀ a d, v = VDict a d →
                    finishes (novabase_desimplify W (desimplify W n) a d) st).
  { intros a d ->. apply novabase_desimplify_finishes; [exact Hp |].
    intros key obj raw st2 Hk Hc Hrec Hin E2 Hs st' E'. apply IH.
    pose proof (extends_trans _ _ _ _ E2 E') as E.
    unfold enough_fuel in *.
    destruct (has_key "simplify_strategy" d) eqn:Htag.
    - destruct (record_of_fetched _ _ _ _ Htag Hrec Hk) as (Hkey & a' & Hh).
      eapply fuel_for_record; [apply (height_field a'); exact Hin | exact Hh | |
                               exact Hfuel].
      eapply pending_decr; [exact Hkey | exact Hc | | exact E].
      destruct Hs as [x Hx]. exists x.
      eapply lookup_weaken; [exact Hx | apply (ext_cache _ _ _ E')].
    - apply record_of_inline in Hrec; [| exact Htag]. subst obj.
      eapply fuel_for_child; [apply (height_field a); exact Hin | | exact Hfuel].
      apply pending_mono. exact E. }
  unfold dispatch. destruct (is_dict_and_has_key v "simplify_strategy").
  - destruct v; try apply total_ret.
    apply finishes_bind; [apply total_subscript |]. intros s s1 Hs.
    assert (s1 = st) as ->.
    { unfold subscript in Hs. destruct (dict_get _ kvs); inversion Hs; reflexivity. }
    apply finishes_bind.
    { destruct (str_is "datetime" s); [apply total_datetime_desimplify | apply total_ret]. }
    intros r1 s1 H1.
    assert (E1 : extends 0 st s1).
    { eapply run_extends; [| exact H1].
      destruct (str_is "datetime" s); [apply pres_datetime_desimplify | apply pres_ret]. }
    apply finishes_bind.
    { destruct (str_is "ipnetwork" s); [apply total_ipnetwork_desimplify | apply total_ret]. }
    intros r2 s2 H2.
    destruct (str_is "novabase" s); [| apply total_ret].
    assert (Hs2 : s2 = st).
    { assert (s1 = st).
      { destruct (str_is "datetime" s); [| inversion H1; reflexivity].
        unfold datetime_desimplify, subscript, lift_sum, bind, ret, raise in H1.
        destruct (dict_get "value" kvs); [| inversion H1; reflexivity].
        destruct (strptime W v); [inversion H1; reflexivity |].
        destruct (dict_get "timezone" kvs); inversion H1; reflexivity. }
      subst s1.
      destruct (str_is "ipnetwork" s); [| inversion H2; reflexivity].
      unfold ipnetwork_desimplify, subscript, lift_sum, bind, ret, raise in H2.
      destruct (dict_get "value" kvs); [| inversion H2; reflexivity].
      destruct (IPNetwork W v); inversion H2; reflexivity. }
    subst s2. apply Hnova. reflexivity.
  - destruct v; try apply total_ret.
    + apply finishes_bind; [| intros l s _; apply total_ret].
      apply finishes_map_M; [exact Hp |].
      intros raw Hin st' E. apply IH. unfold enough_fuel in *.
      eapply fuel_for_child; [apply height_item; exact Hin | | exact Hfuel].
      apply pending_mono. exact E.
    + destruct (has_key "novabase_classname" kvs); [apply Hnova; reflexivity |].
      destruct (has_key "metadata_novabase_classname" kvs);
        [apply Hnova; reflexivity | apply total_ret].
Qed.

End Termination.

(** ** The claim on self-references *)

Section SelfReference.
Context (W : World).

Lemma for_each_app {A} (g : A → M unit) l1 l2 st :
  for_each g (l1 ++ l2) st = (for_each g l1 ;;; for_each g l2) st.
Proof.
  revert st. induction l1 as [| x l1 IH]; intros st; simpl.
  - reflexivity.
  - unfold bind. destruct (g x st) as [[u | e |] s]; [| reflexivity | reflexivity].
    rewrite IH. reflexivity.
Qed.

(** A mapping whose key the cache binds to [v] desimplifies to [v], and the
    cache still binds the key to [v]. *)
Lemma desimplify_cached n a d key v st r st' :
  reconstructs d = true → get_key W a d = inr key →
  cache st !! key = Some v →
  desimplify W n (VDict a d) st = (r, st') →
  r ≠ OutOfFuel → r = Ok v ∧ cache st' !! key = Some v.
Proof.
  intros Hr Hk Hc H Hfuel. destruct n as [| n].
  { inversion H; subst. congruence. }
  pose proof (desimplify_extends _ _ _ _ _ _ H) as E.
  rewrite (desimplify_reconstructs _ _ _ _ _ Hr) in H.
  destruct (reconstruction_hit W n _ _ _ _ _ Hk Hc) as [s Hs].
  rewrite Hs in H. inversion H; subst. split; [reflexivity |].
  eapply lookup_weaken; [exact Hc | apply (ext_cache _ _ _ E)].
Qed.

(** The field step on a reference to the object being populated: the
    placeholder comes back from the cache and is assigned. *)
Lemma self_field_assigned n o f a' d' key st st' m :
  reconstructs d' = true → get_key W a' d' = inr key →
  cache st !! key = Some (VObj o) →
  heap st !! o = Some m → mc_setattr (m_class m) f (VObj o) = None →
  populate_field (desimplify W n) (VObj o) (f, VDict a' d') st = (Ok tt, st') →
  attr st' o f = Some (VObj o).
Proof.
  intros Hr Hk Hc Hm Hset H. unfold populate_field in H.
  apply bind_ok_inv in H as (sv & s1 & H1 & H).
  destruct (desimplify_cached _ _ _ _ _ _ _ _ Hr Hk Hc H1) as [Esv Hc1];
    [discriminate |].
  inversion Esv; subst sv. cbn [negb is_None] in H.
  pose proof (desimplify_extends _ _ _ _ _ _ H1) as E1.
  destruct (desimplify W n (VDict a' d') s1) as [r2 s2] eqn:H2.
  pose proof (desimplify_extends _ _ _ _ _ _ H2) as E2.
  assert (Hfuel : r2 ≠ OutOfFuel).
  { intros ->. unfold try_except in H. rewrite (bind_run_out _ _ _ _ H2) in H.
    discriminate. }
  destruct (desimplify_cached _ _ _ _ _ _ _ _ Hr Hk Hc1 H2 Hfuel) as [-> _].
  assert (Hc2 : has_class s2 o (m_class m)).
  { eapply has_class_extends; [exact E2 |].
    eapply has_class_extends; [exact E1 |]. exists m. auto. }
  destruct Hc2 as (m2 & Hm2 & Ec).
  pose proof (py_setattr_run o f (VObj o) s2 m2 Hm2) as Hs.
  rewrite Ec, Hset in Hs. destruct Hs as (s3 & Hs & Ha & _).
  unfold try_except in H. rewrite (bind_ok _ _ _ _ _ H2), Hs in H.
  inversion H; subst. exact Ha.
Qed.


End SelfReference.



(** The same run, and the run on the inline [self_mapping], evaluated: the
    field [me] of object 0 is object 0, after one fetch and after none. *)
Lemma self_reference_evaluated :
  (desimplify cyclic_world 5 (VDict 1 (instance_ref 1)) init_state).1 = Ok (VObj 0) ∧
  attr (desimplify cyclic_world 5 (VDict 1 (instance_ref 1)) init_state).2 0 "me"
  = Some (VObj 0) ∧
  db_client_gets (desimplify cyclic_world 5 (VDict 1 (instance_ref 1)) init_state).2
  = [("instances", "1")] ∧
  (desimplify empty_world 3 (VDict 1 self_mapping) init_state).1 = Ok (VObj 0) ∧
  attr (desimplify empty_world 3 (VDict 1 self_mapping) init_state).2 0 "me"
  = Some (VObj 0).
Proof. repeat split; vm_compute; reflexivity. Qed.

(** * Beyond the claims *)

(** ** Runs as sequences of writes *)

Lemma walks_ret {A} (a : A) : walks (ret a).
Proof. intros st r st' H. inversion H. reflexivity. Qed.

Lemma walks_raise {A} e : walks (@raise A e).
Proof. intros st r st' H. inversion H. reflexivity. Qed.

Lemma walks_out_of_fuel {A} : walks (@out_of_fuel A).
Proof. intros st r st' H. inversion H. reflexivity. Qed.

Lemma walks_gets {A} (f : State → A) : walks (gets f).
Proof. intros st r st' H. inversion H. reflexivity. Qed.

Lemma walks_lift_sum {A} (x : exn + A) : walks (lift_sum x).
Proof. destruct x; [apply walks_raise | apply walks_ret]. Qed.

Lemma walks_bind {A B} (m : M A) (f : A → M B) :
  walks m → (∀ a, walks (f a)) → walks (bind m f).
Proof.
  intros Hm Hf st r st' H.
  apply bind_run in H as [(a & st1 & H1 & H2) | [(e & H1 & _) | (H1 & _)]].
  - etrans; [eapply Hm | eapply Hf]; eassumption.
  - eapply Hm; eassumption.
  - eapply Hm; eassumption.
Qed.

Lemma walks_try_except {A} (body : M A) (h : exn → M A) :
  walks body → (∀ e, walks (h e)) → walks (try_except body h).
Proof.
  intros Hm Hh st r st' H.
  apply try_except_run in H as [(e & st1 & H1 & H2) | (H1 & _)].
  - etrans; [eapply Hm | eapply Hh]; eassumption.
  - eapply Hm; eassumption.
Qed.

Lemma walks_for_each {A} (f : A → M unit) l :
  (∀ x, walks (f x)) → walks (for_each f l).
Proof.
  intros H. induction l as [| x l IH]; simpl.
  - apply walks_ret.
  - apply walks_bind; [apply H | intros _; exact IH].
Qed.

Lemma walks_map_M {A B} (f : A → M B) l :
  (∀ x, walks (f x)) → walks (map_M f l).
Proof.
  intros H. induction l as [| x l IH]; simpl.
  - apply walks_ret.
  - apply walks_bind; [apply H |]. intros y.
    apply walks_bind; [exact IH | intros ys; apply walks_ret].
Qed.

Lemma walks_py_setattr target key v : walks (py_setattr target key v).
Proof.
  destruct target; try apply walks_raise.
  intros st r st' H. simpl in H.
  destruct (heap st !! addr) as [m |] eqn:Hm; [| inversion H; reflexivity].
  destruct (mc_setattr (m_class m) key v) eqn:Hs; inversion H; subst.
  - reflexivity.
  - apply rtc_once. eapply step_setattr; eassumption.
Qed.

Lemma walks_py_hasattr target key : walks (py_hasattr target key).
Proof. destruct target; try apply walks_ret. apply walks_gets. Qed.

Lemma walks_is_novabase v : walks (is_novabase v).
Proof. destruct v; try apply walks_ret. apply walks_gets. Qed.

Lemma walks_update_foreign_keys target : walks (update_foreign_keys target).
Proof.
  destruct target; try apply walks_raise.
  intros st r st' H. unfold update_foreign_keys, bind, is_novabase, gets in H.
  destruct (heap st !! addr) as [m |] eqn:Hm; [| inversion H; reflexivity].
  destruct (mc_is_novabase (m_class m)) eqn:Hn; inversion H; subst.
  - apply rtc_once. eapply step_hook; eassumption.
  - reflexivity.
Qed.

Lemma walks_final_hook v : walks (final_hook v).
Proof.
  unfold final_hook. apply walks_bind; [apply walks_is_novabase |].
  intros nb. apply walks_bind; [| intros _; apply walks_ret].
  destruct nb; [apply walks_update_foreign_keys | apply walks_ret].
Qed.

Lemma walks_subscript d k : walks (subscript d k).
Proof. unfold subscript. destruct (dict_get k d); [apply walks_ret | apply walks_raise]. Qed.

Lemma walks_copy_scoping_field cm d name : walks (copy_scoping_field cm d name).
Proof.
  unfold copy_scoping_field. apply walks_bind; [apply walks_py_hasattr |].
  intros [|]; [| apply walks_ret].
  destruct (dict_get name d); [apply walks_py_setattr | apply walks_ret].
Qed.

Lemma walks_populate_field desimp cm kv :
  (∀ x, walks (desimp x)) → walks (populate_field desimp cm kv).
Proof.
  destruct kv as [key raw]. intros Hd. unfold populate_field.
  apply walks_bind; [apply Hd |]. intros sv.
  apply walks_try_except.
  - destruct (negb (is_None sv)); [| apply walks_py_setattr].
    apply walks_bind; [apply Hd | intros v; apply walks_py_setattr].
  - intros e. destruct (str_contains _ _); [apply walks_py_setattr | apply walks_ret].
Qed.

Lemma walks_populate desimp cm (obj : dict) :
  (∀ x, walks (desimp x)) → walks (populate desimp cm obj).
Proof.
  intros Hd. unfold populate.
  apply walks_bind; [apply walks_for_each; intros kv; apply walks_populate_field; exact Hd |].
  intros _. apply walks_bind; [apply walks_copy_scoping_field |].
  intros _. apply walks_bind; [apply walks_copy_scoping_field |].
  intros _. apply walks_bind; [apply walks_update_foreign_keys |].
  intros _. apply walks_ret.
Qed.

Section Walks.
Context (W : World).

(** What [fields_to_populate] does to the state: nothing, or one fetch of the
    record filed under the key of the mapping. *)
Lemma fields_to_populate_run a d key st r st' :
  get_key W a d = inr key →
  fields_to_populate W d st = (r, st') →
  ∃ fetch, st' = fetched fetch st ∧
           (∀ b k, fetch = Some (b, k) → key = b +:+ "-" +:+ k) ∧
           (has_key "simplify_strategy" d = false → fetch = None).
Proof.
  intros Hk. unfold fields_to_populate, get_key, subscript in *.
  destruct (has_key "simplify_strategy" d).
  2: { intros H. inversion H; subst. exists None. split; [reflexivity |].
       split; [discriminate | reflexivity]. }
  destruct (dict_get "tablename" d) as [t |].
  2: { intros H. inversion H; subst. exists None. split; [reflexivity |].
       split; discriminate. }
  destruct (dict_get "id" d) as [i |]; [| discriminate].
  inversion Hk; subst key. clear Hk.
  destruct t; try (intros H; inversion H; subst; exists None;
                   split; [reflexivity | split; discriminate]).
  unfold bind, ret, db_client_bucket, db_client_get, modify, raise. simpl.
  intros H. exists (Some (s, py_str W i)).
  destruct (riak_data W !! (s, py_str W i)) as [[a' d'] |]; inversion H; subst;
    (split; [reflexivity | split; [| discriminate]]);
    intros b k E; inversion E; reflexivity.
Qed.

Lemma walks_novabase_desimplify desimp a d :
  (∀ b x, pres b (desimp x)) → (∀ x, walks (desimp x)) →
  walks (novabase_desimplify W desimp a d).
Proof.
  intros Hp Hd st r st' H.
  destruct (get_key W a d) as [e | key] eqn:Hk.
  { unfold novabase_desimplify in H. rewrite Hk in H. inversion H. reflexivity. }
  destruct (cache st !! key) as [v |] eqn:Hc.
  { rewrite (novabase_desimplify_hit _ _ _ _ _ _ _ Hk Hc) in H.
    inversion H. reflexivity. }
  destruct (novabase_desimplify_fresh _ _ _ _ _ _ _ _ (Hp 0) Hk Hc H)
    as [(-> & _) | (m & st2 & r2 & Hsp & Hu & _)]; [reflexivity |].
  destruct (spawned_extends 0 _ _ _ _ (Nat.le_0_l _) Hc Hsp) as (_ & Hk2 & _).
  rewrite (update_nova_model_bound _ _ _ _ _ _ _ Hk Hk2) in Hu.
  apply bind_run in Hu as [(obj & s3 & H1 & H2) | [(e & H1 & _) | (H1 & _)]].
  - destruct (fields_to_populate_run _ _ _ _ _ _ Hk H1) as (fetch & -> & Hf & _).
    eapply rtc_l; [eapply step_reconstruct; eassumption |].
    eapply walks_populate; eassumption.
  - destruct (fields_to_populate_run _ _ _ _ _ _ Hk H1) as (fetch & -> & Hf & _).
    apply rtc_once. eapply step_reconstruct; eassumption.
  - destruct (fields_to_populate_run _ _ _ _ _ _ Hk H1) as (fetch & -> & Hf & _).
    apply rtc_once. eapply step_reconstruct; eassumption.
Qed.

Lemma walks_dispatch desimp obj :
  (∀ b x, pres b (desimp x)) → (∀ x, walks (desimp x)) →
  walks (dispatch W desimp obj).
Proof.
  intros Hp Hd. unfold dispatch.
  destruct (is_dict_and_has_key obj "simplify_strategy").
  - destruct obj; try apply walks_ret.
    apply walks_bind; [apply walks_subscript |]. intros s.
    apply walks_bind.
    { destruct (str_is "datetime" s); [| apply walks_ret].
      unfold datetime_desimplify.
      apply walks_bind; [apply walks_subscript |]. intros v.
      apply walks_bind; [apply walks_lift_sum |]. intros t.
      apply walks_bind; [apply walks_subscript | intros tz; apply walks_ret]. }
    intros r1. apply walks_bind.
    { destruct (str_is "ipnetwork" s); [| apply walks_ret].
      unfold ipnetwork_desimplify.
      apply walks_bind; [apply walks_subscript |]. intros v.
      apply walks_bind; [apply walks_lift_sum | intros t; apply walks_ret]. }
    intros r2. destruct (str_is "novabase" s); [| apply walks_ret].
    apply walks_novabase_desimplify; assumption.
  - destruct obj; try apply walks_ret.
    + apply walks_bind; [apply walks_map_M; exact Hd | intros l; apply walks_ret].
    + destruct (has_key "novabase_classname" kvs);
        [apply walks_novabase_desimplify; assumption |].
      destruct (has_key "metadata_novabase_classname" kvs);
        [apply walks_novabase_desimplify; assumption | apply walks_ret].
Qed.

(** Every run of [desimplify] is a sequence of writes of the engine. *)
Lemma walks_desimplify n : ∀ obj, walks (desimplify W n obj).
Proof.
  induction n as [| n IH]; intros obj; simpl.
  - apply walks_out_of_fuel.
  - apply walks_bind; [| intros r; apply walks_final_hook].
    apply walks_dispatch; [intros b x; apply pres_desimplify | exact IH].
Qed.

End Walks.

(** ** What the writes keep *)

Lemma spawned_inv key st m st2 :
  spawned key st m st2 →
  cache st2 = <[key := m]> (cache st) ∧
  (m = VNone ∧ heap st2 = heap st ∨
   ∃ c, m = VObj (length (heap st)) ∧
        heap st2 = (heap st ++ [{| m_class := c; m_attrs := ∅ |}])%list) ∧
  lazy_cache st2 = lazy_cache st ∧ dbClient_gets st2 = dbClient_gets st ∧
  db_client_gets st2 = db_client_gets st ∧ hooks st2 = hooks st.
Proof.
  intros [[-> ->] | (c & -> & ->)]; simpl; repeat split; eauto.
Qed.

Lemma fetched_inv fetch st :
  cache (fetched fetch st) = cache st ∧ heap (fetched fetch st) = heap st ∧
  lazy_cache (fetched fetch st) = lazy_cache st ∧
  dbClient_gets (fetched fetch st) = dbClient_gets st ∧
  hooks (fetched fetch st) = hooks st ∧
  db_client_gets (fetched fetch st)
  = (db_client_gets st ++ match fetch with Some bk => [bk] | None => [] end)%list.
Proof.
  destruct fetch as [[b k] |]; simpl; repeat split; auto.
  symmetry. apply app_nil_r.
Qed.

Lemma step_cache_live st st' :
  engine_step st st' → cache_live st → cache_live st'.
Proof.
  intros Hs Hl. destruct Hs as [st key m st2 fetch Hc Hsp Hf | st a m key v Hm Hv | st a m Hm Hn].
  - destruct (fetched_inv fetch st2) as (Ec & Eh & _).
    destruct (spawned_inv _ _ _ _ Hsp) as (Ec2 & Hheap & _).
    intros k v. rewrite Ec, Eh, Ec2. intros Hk.
    apply lookup_insert_Some in Hk as [[<- <-] | [Hne Hk]].
    + destruct Hheap as [[-> _] | (c & -> & ->)]; [left; reflexivity |].
      right. eexists. split; [reflexivity |]. rewrite length_app. simpl. lia.
    + destruct (Hl k v Hk) as [-> | (a & -> & Ha)]; [left; reflexivity |].
      right. exists a. split; [reflexivity |].
      destruct Hheap as [[_ ->] | (c & _ & ->)]; [exact Ha |].
      rewrite length_app. lia.
  - intros k x Hk. simpl in *. rewrite length_insert. eapply Hl. exact Hk.
  - intros k x Hk. simpl in *. eapply Hl. exact Hk.
Qed.

Lemma step_attrs_accepted st st' :
  engine_step st st' → attrs_accepted st → attrs_accepted st'.
Proof.
  intros Hs Hl. destruct Hs as [st key m st2 fetch Hc Hsp Hf | st a m key v Hm Hv | st a m Hm Hn].
  - destruct (fetched_inv fetch st2) as (_ & Eh & _).
    destruct (spawned_inv _ _ _ _ Hsp) as (_ & Hheap & _).
    intros a x k v. rewrite Eh.
    destruct Hheap as [[_ ->] | (c & _ & ->)]; [apply Hl |].
    intros Hx. apply lookup_app_Some in Hx as [Hx | [_ Hx]]; [eapply Hl; exact Hx |].
    apply list_lookup_singleton_Some in Hx as [_ <-]. simpl.
    rewrite lookup_empty. discriminate.
  - intros a' x k w. simpl. destruct (decide (a = a')) as [<- | Hne].
    + rewrite list_lookup_insert_eq by (eapply lookup_lt_Some; exact Hm).
      intros Hx. inversion Hx; subst x. simpl. clear Hx.
      intros Hk. apply lookup_insert_Some in Hk as [[<- <-] | [_ Hk]];
        [exact Hv | eapply Hl; eassumption].
    + rewrite list_lookup_insert_ne by exact Hne. apply Hl.
  - intros a' x k w. simpl. apply Hl.
Qed.

Lemma step_lazy_untouched st st' :
  engine_step st st' →
  lazy_cache st' = lazy_cache st ∧ dbClient_gets st' = dbClient_gets st.
Proof.
  intros Hs. destruct Hs as [st key m st2 fetch Hc Hsp Hf | st a m key v Hm Hv | st a m Hm Hn].
  - destruct (fetched_inv fetch st2) as (_ & _ & -> & -> & _).
    destruct (spawned_inv _ _ _ _ Hsp) as (_ & _ & -> & -> & _). auto.
  - auto.
  - auto.
Qed.

Lemma step_cache_grows st st' : engine_step st st' → cache st ⊆ cache st'.
Proof.
  intros Hs. destruct Hs as [st key m st2 fetch Hc Hsp Hf | st a m key v Hm Hv | st a m Hm Hn].
  - destruct (fetched_inv fetch st2) as (-> & _).
    destruct (spawned_inv _ _ _ _ Hsp) as (-> & _).
    apply insert_subseteq. exact Hc.
  - reflexivity.
  - reflexivity.
Qed.

Lemma step_fetched_since st0 st st' :
  fetched_since st0 st → engine_step st st' → fetched_since st0 st'.
Proof.
  intros (Hsub & new & Hlog & Hnd & Hnew) Hs.
  pose proof (step_cache_grows _ _ Hs) as Hgrow.
  split; [etrans; eassumption |].
  destruct Hs as [st key m st2 fetch Hc Hsp Hf | st a m key v Hm Hv | st a m Hm Hn].
  - destruct (fetched_inv fetch st2) as (Ec & _ & _ & _ & _ & Eg).
    destruct (spawned_inv _ _ _ _ Hsp) as (Ec2 & _ & _ & _ & Eg2 & _).
    exists (new ++ match fetch with Some bk => [bk] | None => [] end)%list.
    rewrite Eg, Eg2, Hlog, app_assoc. split; [reflexivity |].
    assert (Hold : ∀ bk, bk ∈ new →
                     is_Some (cache (fetched fetch st2) !! key_of_fetch bk) ∧
                     cache st0 !! key_of_fetch bk = None).
    { intros bk Hbk. destruct (Hnew bk Hbk) as [[x Hx] Hn0]. split; [| exact Hn0].
      exists x. eapply lookup_weaken; [exact Hx | exact Hgrow]. }
    destruct fetch as [[b k] |].
    + specialize (Hf b k eq_refl). split.
      * rewrite fmap_app. apply NoDup_app. split; [exact Hnd |].
        split; [| apply NoDup_singleton].
        intros ks Hks Hin. apply list_elem_of_singleton in Hin. subst ks.
        apply list_elem_of_fmap in Hks as (bk & Ebk & Hbk).
        destruct (Hnew bk Hbk) as [[x Hx] _].
        rewrite <- Ebk in Hx. unfold key_of_fetch in Hx. simpl in Hx.
        rewrite <- Hf in Hx. congruence.
      * intros bk Hbk. apply elem_of_app in Hbk as [Hbk | Hbk]; [auto |].
        apply list_elem_of_singleton in Hbk. subst bk.
        unfold key_of_fetch. simpl. rewrite <- Hf. split.
        -- rewrite Ec2. rewrite lookup_insert_eq. eauto.
        -- destruct (cache st0 !! key) as [x |] eqn:Hx; [| reflexivity].
           pose proof (lookup_weaken _ _ _ _ Hx Hsub). congruence.
    + rewrite app_nil_r. split; [exact Hnd | exact Hold].
  - exists new. simpl. split; [exact Hlog |]. split; [exact Hnd | exact Hnew].
  - exists new. simpl. split; [exact Hlog |]. split; [exact Hnd | exact Hnew].
Qed.

Lemma fetched_since_refl st : fetched_since st st.
Proof.
  split; [reflexivity |]. exists []. rewrite app_nil_r.
  split; [reflexivity |]. split; [constructor | intros bk Hbk; inversion Hbk].
Qed.

Lemma rtc_cache_live st st' :
  rtc engine_step st st' → cache_live st → cache_live st'.
Proof. induction 1; eauto using step_cache_live. Qed.

Lemma rtc_attrs_accepted st st' :
  rtc engine_step st st' → attrs_accepted st → attrs_accepted st'.
Proof. induction 1; eauto using step_attrs_accepted. Qed.

Lemma rtc_lazy_untouched st st' :
  rtc engine_step st st' →
  lazy_cache st' = lazy_cache st ∧ dbClient_gets st' = dbClient_gets st.
Proof.
  induction 1 as [| x y z Hs _ [IH1 IH2]]; [auto |].
  destruct (step_lazy_untouched _ _ Hs) as [E1 E2]. split; congruence.
Qed.

Lemma rtc_fetched_since st st' : rtc engine_step st st' → fetched_since st st'.
Proof.
  intros H. revert st' H. apply rtc_ind_r.
  - apply fetched_since_refl.
  - intros y z _ Hs IH. eapply step_fetched_since; eassumption.
Qed.

(** ** Invariants of the engine *)

Section EngineInvariants.
Context (W : World).


(** X2.  When every value bound in the cache is [None] or an object of the
    heap, this is so after any run of [desimplify]. *)
Theorem desimplify_keeps_cache_live n v st :
  cache_live st → cache_live (desimplify W n v st).2.
Proof.
  intros Hl. destruct (desimplify W n v st) as [r st'] eqn:H. simpl.
  eapply rtc_cache_live; [| exact Hl]. eapply walks_desimplify. exact H.
Qed.

(** X3.  [desimplify] stores an attribute only when the class of the object
    accepts the assignment: objects that hold accepted attributes only still
    do after any run. *)
Theorem desimplify_stores_accepted_attributes n v st :
  attrs_accepted st → attrs_accepted (desimplify W n v st).2.
Proof.
  intros Hl. destruct (desimplify W n v st) as [r st'] eqn:H. simpl.
  eapply rtc_attrs_accepted; [| exact Hl]. eapply walks_desimplify. exact H.
Qed.

(** The engine never writes the memo of a lazy reference nor fetches
    through the client of [lazy_reference.py]. *)
Lemma desimplify_leaves_lazy_reference n v st :
  lazy_cache (desimplify W n v st).2 = lazy_cache st ∧
  dbClient_gets (desimplify W n v st).2 = dbClient_gets st.
Proof.
  destruct (desimplify W n v st) as [r st'] eqn:H. simpl.
  apply rtc_lazy_untouched. eapply walks_desimplify. exact H.
Qed.

(** X4.  The fetches of one run of [desimplify] are for pairwise different
    cache keys, each a key the cache did not hold before the run and holds
    after it: the engine fetches at most once per identity key. *)
Theorem desimplify_fetches_once_per_key n v st :
  ∃ new,
    db_client_gets (desimplify W n v st).2 = (db_client_gets st ++ new)%list ∧
    NoDup (key_of_fetch <$> new) ∧
    ∀ bk, bk ∈ new →
          is_Some (cache (desimplify W n v st).2 !! key_of_fetch bk) ∧
          cache st !! key_of_fetch bk = None.
Proof.
  destruct (desimplify W n v st) as [r st'] eqn:H. simpl.
  apply (rtc_fetched_since st st'). eapply walks_desimplify. exact H.
Qed.

End EngineInvariants.

Lemma cache_live_init : cache_live init_state.
Proof. intros k v H. simpl in H. rewrite lookup_empty in H. discriminate. Qed.

Lemma attrs_accepted_init : attrs_accepted init_state.
Proof. intros a m key v H. simpl in H. destruct a; discriminate. Qed.

(** X2 on the bare reference of [cyclic_world], from a fresh engine. *)
Lemma desimplify_keeps_cache_live_witness :
  cache_live (desimplify cyclic_world 5 (VDict 1 (instance_ref 1)) init_state).2.
Proof.
  apply (desimplify_keeps_cache_live cyclic_world 5 (VDict 1 (instance_ref 1))
           init_state).
  exact cache_live_init.
Defined.

(** X3 on the same run. *)
Lemma desimplify_stores_accepted_attributes_witness :
  attrs_accepted (desimplify cyclic_world 5 (VDict 1 (instance_ref 1)) init_state).2.
Proof.
  apply (desimplify_stores_accepted_attributes cyclic_world 5
           (VDict 1 (instance_ref 1)) init_state).
  exact attrs_accepted_init.
Defined.

(** ** Scalars, sequences and the two scalar strategies *)

Section Terminal.
Context (W : World).

(** A scalar comes back as it is, and the state with it. *)
Lemma desimplify_scalar_run n v st :
  is_scalar v = true → desimplify W (S n) v st = (Ok v, st).
Proof. destruct v; try discriminate; intros _; reflexivity. Qed.

(** What [map_M] returns, item by item. *)
Lemma map_M_ok (f : value → M value) (Hf : ∀ x, pres 0 (f x)) items :
  ∀ st l st', map_M f items st = (Ok l, st') →
    Forall2 (λ x y, ∃ s s', extends 0 st s ∧ f x s = (Ok y, s')) items l.
Proof.
  induction items as [| x items IH]; intros st l st' H.
  - inversion H. constructor.
  - simpl in H. apply bind_ok_inv in H as (y & s1 & H1 & H).
    apply bind_ok_inv in H as (ys & s2 & H2 & H). inversion H; subst l st'.
    constructor.
    + exists st, s1. split; [apply extends_refl | exact H1].
    + pose proof (run_extends _ _ _ _ (Hf x) H1) as E1.
      eapply Forall2_impl; [apply (IH _ _ _ H2) |].
      intros a b (s & s' & Es & Hs). exists s, s'. split; [| exact Hs].
      eapply extends_trans; eassumption.
Qed.


(** X6.  Under the tag ['datetime'] the outcome is that of the datetime
    handler and the state is left as it is: [KeyError] without ["value"], the
    error of [strptime], [KeyError] without ["timezone"], or the parsed
    instant, localized to UTC exactly when the timezone is ["UTC"]. *)
Theorem desimplify_datetime n a d st :
  dict_get "simplify_strategy" d = Some (VStr "datetime") →
  desimplify W (S n) (VDict a d) st =
  (match dict_get "value" d with
   | None => Raise (key_error "value")
   | Some v =>
       match strptime W v with
       | inl e => Raise e
       | inr t =>
           match dict_get "timezone" d with
           | None => Raise (key_error "timezone")
           | Some tz => Ok (VDatetime t (str_is "UTC" tz))
           end
       end
   end, st).
Proof.
  intros Hs. simpl. unfold dispatch, is_dict_and_has_key, has_key, subscript.
  rewrite Hs. unfold bind at 1. unfold bind at 1. unfold ret at 1.
  unfold bind at 1. cbn [str_is String.eqb Ascii.eqb Bool.eqb].
  unfold datetime_desimplify, subscript, bind, lift_sum, ret, raise.
  destruct (dict_get "value" d) as [v |]; [| reflexivity].
  destruct (strptime W v) as [e | t]; [reflexivity |].
  destruct (dict_get "timezone" d) as [tz |]; reflexivity.
Qed.

(** X7.  Under the tag ['ipnetwork'] the outcome is that of the network
    handler and the state is left as it is. *)
Theorem desimplify_ipnetwork n a d st :
  dict_get "simplify_strategy" d = Some (VStr "ipnetwork") →
  desimplify W (S n) (VDict a d) st =
  (match dict_get "value" d with
   | None => Raise (key_error "value")
   | Some v =>
       match IPNetwork W v with
       | inl e => Raise e
       | inr c => Ok (VIPNetwork c)
       end
   end, st).
Proof.
  intros Hs. simpl. unfold dispatch, is_dict_and_has_key, has_key, subscript.
  rewrite Hs. unfold bind at 1. unfold bind at 1. unfold ret at 1.
  unfold bind at 1. cbn [str_is String.eqb Ascii.eqb Bool.eqb].
  unfold ipnetwork_desimplify, subscript, bind, lift_sum, ret, raise.
  destruct (dict_get "value" d) as [v |]; [| reflexivity].
  destruct (IPNetwork W v) as [e | c]; reflexivity.
Qed.

End Terminal.

(** ** Keys *)

Section Keys.
Context (W : World).

(** X8.  An object mapping with a table name but without id makes
    [desimplify] raise [KeyError] for ['id'], before any effect. *)
Theorem desimplify_without_id n a d t st :
  reconstructs d = true →
  dict_get "tablename" d = Some t → dict_get "id" d = None →
  desimplify W (S n) (VDict a d) st = (Raise (key_error "id"), st).
Proof.
  intros Hr Ht Hi. rewrite (desimplify_reconstructs W _ _ _ _ Hr).
  unfold reconstruction, novabase_desimplify, get_key. rewrite Ht, Hi.
  reflexivity.
Qed.

Lemma append_assoc (s1 s2 s3 : string) : (s1 +:+ s2) +:+ s3 = s1 +:+ s2 +:+ s3.
Proof.
  induction s1 as [| c s1 IH]; [reflexivity |].
  change (String c ((s1 +:+ s2) +:+ s3) = String c (s1 +:+ s2 +:+ s3)).
  rewrite IH. reflexivity.
Qed.

(** What a later call returns for a key that the cache binds, and what it
    leaves in place. *)
Lemma desimplify_hit n a d key v st :
  reconstructs d = true → get_key W a d = inr key → cache st !! key = Some v →
  ∃ st', desimplify W (S n) (VDict a d) st = (Ok v, st') ∧
         heap st' = heap st ∧ cache st' = cache st ∧
         db_client_gets st' = db_client_gets st.
Proof.
  intros Hr Hk Hc. rewrite (desimplify_reconstructs W _ _ _ _ Hr).
  unfold reconstruction.
  rewrite (bind_ok _ _ _ _ _ (novabase_desimplify_hit W _ _ _ _ _ _ Hk Hc)).
  destruct (final_hook_run v st) as [[H _] | (o & _ & _ & H)];
    rewrite H; eexists; split; reflexivity || (repeat split; reflexivity).
Qed.

(** Two mappings whose keys coincide: the second comes back as the first. *)
Lemma shared_key_shares_object n1 n2 a1 d1 a2 d2 key st v1 st1 :
  reconstructs d1 = true → reconstructs d2 = true →
  get_key W a1 d1 = inr key → get_key W a2 d2 = inr key →
  desimplify W (S n1) (VDict a1 d1) st = (Ok v1, st1) →
  (desimplify W (S n2) (VDict a2 d2) st1).1 = Ok v1.
Proof.
  intros R1 R2 K1 K2 H1. rewrite (desimplify_reconstructs W _ _ _ _ R1) in H1.
  pose proof (reconstruction_ok W _ _ _ _ _ _ _ K1 H1) as Hc.
  destruct (desimplify_hit n2 _ _ _ _ _ R2 K2 Hc) as (st' & -> & _). reflexivity.
Qed.

(** X9.  The key does not keep table name and id apart: a record of table
    [t-i] with id [j] and a record of table [t] with id [i-j] have one key,
    so that the second is rehydrated to the object of the first. *)
Theorem separator_collision n1 n2 a1 d1 a2 d2 (t i j : string) st v1 st1 :
  reconstructs d1 = true → reconstructs d2 = true →
  dict_get "tablename" d1 = Some (VStr (t +:+ "-" +:+ i)) →
  dict_get "id" d1 = Some (VStr j) →
  dict_get "tablename" d2 = Some (VStr t) →
  dict_get "id" d2 = Some (VStr (i +:+ "-" +:+ j)) →
  desimplify W (S n1) (VDict a1 d1) st = (Ok v1, st1) →
  (desimplify W (S n2) (VDict a2 d2) st1).1 = Ok v1.
Proof.
  intros R1 R2 T1 I1 T2 I2 H.
  eapply (shared_key_shares_object n1 n2 a1 d1 a2 d2); try eassumption.
  - unfold get_key. rewrite T1, I1. reflexivity.
  - unfold get_key. rewrite T2, I2. simpl. rewrite append_assoc. reflexivity.
Qed.

(** X10.  The key holds [str] of the id: an integer id and the string of its
    decimal digits name one object. *)
Theorem integer_and_text_id_collide n1 n2 a1 d1 a2 d2 t (z : Z) st v1 st1 :
  reconstructs d1 = true → reconstructs d2 = true →
  dict_get "tablename" d1 = Some t → dict_get "id" d1 = Some (VInt z) →
  dict_get "tablename" d2 = Some t →
  dict_get "id" d2 = Some (VStr (NilZero.string_of_int (Z.to_int z))) →
  desimplify W (S n1) (VDict a1 d1) st = (Ok v1, st1) →
  (desimplify W (S n2) (VDict a2 d2) st1).1 = Ok v1.
Proof.
  intros R1 R2 T1 I1 T2 I2 H.
  eapply (shared_key_shares_object n1 n2 a1 d1 a2 d2); try eassumption.
  - unfold get_key. rewrite T1, I1. reflexivity.
  - unfold get_key. rewrite T2, I2. reflexivity.
Qed.

(** X11.  Once the reconstruction of a key has begun, whatever its outcome,
    the key stays bound: either the call raised before any effect, or the
    cache binds the key, and every later [desimplify] of a mapping with this
    key returns the bound value without populating or fetching again. *)
Theorem begun_reconstruction_stays_bound n a d key st r st' :
  reconstructs d = true → get_key W a d = inr key → cache st !! key = None →
  desimplify W (S n) (VDict a d) st = (r, st') →
  st' = st ∨
  ∃ v, cache st' !! key = Some v ∧
       ∀ n2 a2 d2, reconstructs d2 = true → get_key W a2 d2 = inr key →
         ∃ st2, desimplify W (S n2) (VDict a2 d2) st' = (Ok v, st2) ∧
                heap st2 = heap st' ∧ cache st2 = cache st' ∧
                db_client_gets st2 = db_client_gets st'.
Proof.
  intros Hr Hk Hc H.
  assert (Hbound : st' = st ∨ ∃ v, cache st' !! key = Some v).
  { rewrite (desimplify_reconstructs W _ _ _ _ Hr) in H. unfold reconstruction in H.
    assert (Hn : ∀ rn s, novabase_desimplify W (desimplify W n) a d st = (rn, s) →
                         s = st ∨ ∃ v, cache s !! key = Some v).
    { intros rn s Hn.
      destruct (novabase_desimplify_fresh W _ _ _ _ _ _ _
                  (fun x => pres_desimplify W n 0 x) Hk Hc Hn)
        as [(-> & _) | (m & st2 & r2 & Hsp & Hu & _)]; [left; reflexivity |].
      destruct (spawned_extends 0 _ _ _ _ (Nat.le_0_l _) Hc Hsp) as (_ & Hk2 & Hnb).
      pose proof (update_nova_model_extends W 0 _ _ _ _ _ _ _ _
                    (pres_desimplify W n 0) Hk Hk2 Hnb (Nat.le_0_l _) Hu) as E.
      right. exists m. eapply lookup_weaken; [exact Hk2 | apply (ext_cache _ _ _ E)]. }
    apply bind_run in H as [(x & s & H1 & H2) | [(e & H1 & _) | (H1 & _)]].
    - apply final_hook_ok in H2 as (_ & Ec & _).
      right. exists x. rewrite Ec.
      eapply novabase_desimplify_ok; [| exact Hk | exact H1].
      intros b y. apply pres_desimplify.
    - eapply Hn. exact H1.
    - eapply Hn. exact H1. }
  destruct Hbound as [-> | [v Hv]]; [left; reflexivity |].
  right. exists v. split; [exact Hv |].
  intros n2 a2 d2 R2 K2. apply (desimplify_hit n2 a2 d2 key v st' R2 K2 Hv).
Qed.

End Keys.

(** ** Population *)

Section Population.
Context (W : World).

(** [spawn_empty_model] with a class name that the registry knows, on a key
    that the cache does not hold. *)
Lemma spawn_empty_model_new a d key mcn c st :
  dict_get "novabase_classname" d = Some mcn → is_None mcn = false →
  get_model_class_from_name W mcn = Some c →
  get_key W a d = inr key → cache st !! key = None →
  spawn_empty_model W a d st =
  (Ok (VObj (length (heap st))),
   set_cache (<[key := VObj (length (heap st))]> (cache st))
     (set_heap (heap st ++ [{| m_class := c; m_attrs := ∅ |}]) st)).
Proof.
  intros Hd Hn Hc Hk Hcache.
  unfold spawn_empty_model, read_model_class_name, instantiate. rewrite Hd, Hk.
  unfold bind at 1. unfold ret at 1. rewrite Hn, Hc.
  unfold bind, new_model, lift_sum, ret, cache_has_key, gets, cache_store,
    modify, cache_lookup. simpl.
  rewrite Hcache. rewrite bool_decide_eq_false_2 by (intros [? ?]; congruence).
  simpl. rewrite lookup_insert_eq. reflexivity.
Qed.

(** X12.  A reference to a record that the store does not hold: the first
    [desimplify] raises [TypeError] after one fetch, and leaves the key bound
    to the empty object it had allocated; every later [desimplify] of the
    reference returns that empty object and does not ask the store again. *)
Theorem missing_record_leaves_placeholder n a d b i mcn c st :
  dict_get "simplify_strategy" d = Some (VStr "novabase") →
  dict_get "novabase_classname" d = Some mcn → is_None mcn = false →
  get_model_class_from_name W mcn = Some c →
  dict_get "tablename" d = Some (VStr b) → dict_get "id" d = Some i →
  riak_data W !! (b, py_str W i) = None →
  cache st !! (b +:+ "-" +:+ py_str W i) = None →
  ∃ st',
    desimplify W (S n) (VDict a d) st = (Raise none_not_iterable, st') ∧
    db_client_gets st' = (db_client_gets st ++ [(b, py_str W i)])%list ∧
    cache st' !! (b +:+ "-" +:+ py_str W i) = Some (VObj (length (heap st))) ∧
    (∀ k, attr st' (length (heap st)) k = None) ∧
    ∀ n', ∃ st'', desimplify W (S n') (VDict a d) st' = (Ok (VObj (length (heap st))), st'') ∧
                  db_client_gets st'' = db_client_gets st'.
Proof.
  intros Hs Hd Hn Hc Ht Hi Hr Hcache.
  assert (Hrec : reconstructs d = true) by (unfold reconstructs; rewrite Hs; reflexivity).
  assert (Hk : get_key W a d = inr (b +:+ "-" +:+ py_str W i)).
  { unfold get_key. rewrite Ht, Hi. reflexivity. }
  set (key := b +:+ "-" +:+ py_str W i) in *.
  assert (Hu : ∀ s cm, cache s !! key = Some cm →
                 update_nova_model W (desimplify W n) a d s
                 = (Raise none_not_iterable, log_db_client_get b (py_str W i) s)).
  { intros s cm Hcm. rewrite (update_nova_model_bound W _ _ _ _ _ _ Hk Hcm).
    apply bind_raise.
    unfold fields_to_populate, has_key, subscript. rewrite Hs, Ht, Hi.
    unfold bind, ret, db_client_bucket, db_client_get, modify, raise. simpl.
    rewrite Hr. reflexivity. }
  eexists. split.
  { rewrite (desimplify_reconstructs W _ _ _ _ Hrec).
    unfold reconstruction. apply bind_raise.
    unfold novabase_desimplify. rewrite Hk.
    unfold lift_sum, bind, ret, cache_has_key, gets, cache_store, modify,
      cache_lookup. simpl.
    rewrite Hcache. rewrite bool_decide_eq_false_2 by (intros [? ?]; congruence).
    rewrite (spawn_empty_model_new a d key mcn c st Hd Hn Hc Hk Hcache).
    match goal with |- context [update_nova_model W ?f a d ?s] =>
      rewrite (Hu s (VObj (length (heap st))))
    end; [reflexivity |].
    simpl. apply lookup_insert_eq. }
  split; [reflexivity |].
  split; [simpl; apply lookup_insert_eq |]. split.
  { intros k. unfold attr. simpl. rewrite lookup_app_r by lia.
    rewrite Nat.sub_diag. simpl. apply lookup_empty. }
  intros n'.
  match goal with |- context [desimplify W (S n') (VDict a d) ?s] =>
    destruct (desimplify_hit W n' a d key (VObj (length (heap st))) s Hrec Hk)
      as (st'' & H & _ & _ & Hg)
  end.
  { simpl. apply lookup_insert_eq. }
  exists st''. split; [exact H | exact Hg].
Qed.

Lemma dict_get_NoDup (obj : dict) k raw :
  NoDup obj.*1 → (k, raw) ∈ obj → dict_get k obj = Some raw.
Proof.
  induction obj as [| [k' v'] obj IH]; intros Hnd Hin; [inversion Hin |].
  simpl in Hnd. apply NoDup_cons in Hnd as [Hnotin Hnd].
  apply elem_of_cons in Hin as [E | Hin].
  - inversion E; subst. simpl. rewrite String.eqb_refl. reflexivity.
  - simpl. destruct (String.eqb k k') eqn:Ek; [| auto].
    apply String.eqb_eq in Ek. subst k'. exfalso. apply Hnotin.
    apply list_elem_of_fmap. exists (k, raw). auto.
Qed.

(** The steps of a population that returns. *)
Lemma populate_steps desimp cm (obj : dict) st v st' :
  populate desimp cm obj st = (Ok v, st') →
  ∃ s1 s2 s3,
    for_each (populate_field desimp cm) obj st = (Ok tt, s1) ∧
    copy_scoping_field cm obj "user_id" s1 = (Ok tt, s2) ∧
    copy_scoping_field cm obj "project_id" s2 = (Ok tt, s3) ∧
    update_foreign_keys cm s3 = (Ok tt, st').
Proof.
  intros H. unfold populate in H.
  apply bind_ok_inv in H as ([] & s1 & H1 & H).
  apply bind_ok_inv in H as ([] & s2 & H2 & H).
  apply bind_ok_inv in H as ([] & s3 & H3 & H).
  apply bind_ok_inv in H as ([] & s4 & H4 & H).
  inversion H; subst. eauto 10.
Qed.

(** A copy of a scoping field that the class declares and the record holds
    is an assignment of the stored value. *)
Lemma copy_scoping_field_declared o c (obj : dict) name raw st r st' :
  has_class st o c → In name (mc_class_attrs c) → dict_get name obj = Some raw →
  copy_scoping_field (VObj o) obj name st = (r, st') →
  py_setattr (VObj o) name raw st = (r, st').
Proof.
  intros (m & Hm & <-) Hin Hd. unfold copy_scoping_field, py_hasattr, bind, gets.
  rewrite Hm, Hd.
  assert (E : existsb (String.eqb name) (mc_class_attrs (m_class m)) = true).
  { apply existsb_exists. exists name. split; [exact Hin | apply String.eqb_refl]. }
  rewrite E. simpl. auto.
Qed.

Lemma py_setattr_ok o c name raw st st' :
  has_class st o c → py_setattr (VObj o) name raw st = (Ok tt, st') →
  mc_setattr c name raw = None ∧ attr st' o name = Some raw.
Proof.
  intros (m & Hm & <-) H. pose proof (py_setattr_run o name raw st m Hm) as Hs.
  destruct (mc_setattr (m_class m) name raw) as [e |].
  - rewrite Hs in H. discriminate.
  - destruct Hs as (s & Hs & Ha & _). rewrite Hs in H. inversion H; subst. auto.
Qed.

(** X13.  The two scoping fields hold the stored value, not the rehydrated
    one: when a population returns, a field [user_id] or [project_id] that
    the class declares and the record holds was accepted by the class as it
    was stored, and is the attribute of the object. *)
Theorem populate_copies_scoping_field n o c (obj : dict) name raw st v st' :
  has_class st o c →
  name = "user_id" ∨ name = "project_id" →
  In name (mc_class_attrs c) → dict_get name obj = Some raw →
  populate (desimplify W n) (VObj o) obj st = (Ok v, st') →
  mc_setattr c name raw = None ∧ attr st' o name = Some raw.
Proof.
  intros Hc Hname Hin Hd H.
  apply populate_steps in H as (s1 & s2 & s3 & H1 & H2 & H3 & H4).
  assert (Hnb : not_below 0 (VObj o)) by (simpl; lia).
  assert (E1 : extends 0 st s1).
  { eapply run_extends; [| exact H1]. apply pres_for_each. intros kv _.
    apply pres_populate_field; [exact Hnb | apply pres_desimplify]. }
  pose proof (run_extends _ _ _ _ (pres_copy_scoping_field 0 _ _ _ Hnb) H2) as E2.
  pose proof (has_class_extends _ _ _ _ _ E1 Hc) as Hc1.
  pose proof (has_class_extends _ _ _ _ _ E2 Hc1) as Hc2.
  destruct Hname as [-> | ->].
  - apply (copy_scoping_field_declared _ _ _ _ _ _ _ _ Hc1 Hin Hd) in H2.
    apply (py_setattr_ok _ _ _ _ _ _ Hc1) in H2 as [Hacc Ha].
    split; [exact Hacc |].
    destruct Hc2 as (m2 & Hm2 & _). pose proof (lookup_lt_Some _ _ _ Hm2) as Ho2.
    assert (Hne : "user_id" ≠ "project_id") by discriminate.
    destruct (keeps_copy_scoping_field o "user_id" (VObj o) obj "project_id" Hne
                _ _ _ Ho2 H3) as [K3 Ho3].
    destruct (keeps_update_foreign_keys o "user_id" (VObj o) _ _ _ Ho3 H4) as [K4 _].
    congruence.
  - apply (copy_scoping_field_declared _ _ _ _ _ _ _ _ Hc2 Hin Hd) in H3.
    pose proof H3 as H3'.
    apply (py_setattr_ok _ _ _ _ _ _ Hc2) in H3 as [Hacc Ha].
    split; [exact Hacc |].
    pose proof (run_extends _ _ _ _ (pres_py_setattr 0 _ _ _ Hnb) H3') as E3.
    destruct (has_class_extends _ _ _ _ _ E3 Hc2) as (m3 & Hm3 & _).
    pose proof (lookup_lt_Some _ _ _ Hm3) as Ho3.
    destruct (keeps_update_foreign_keys o "project_id" (VObj o) _ _ _ Ho3 H4) as [K4 _].
    congruence.
Qed.

(** The field step on a scalar that the class accepts. *)
Lemma populate_field_scalar n o c k raw st st' :
  has_class st o c → is_scalar raw = true →
  populate_field (desimplify W n) (VObj o) (k, raw) st = (Ok tt, st') →
  mc_setattr c k raw = None → attr st' o k = Some raw.
Proof.
  intros Hc Hs H Hacc. unfold populate_field in H.
  apply bind_ok_inv in H as (sv & s1 & H1 & H).
  destruct n as [| n]; [discriminate |].
  rewrite (desimplify_scalar_run W n raw st Hs) in H1. inversion H1; subst sv s1.
  destruct Hc as (m & Hm & <-).
  pose proof (py_setattr_run o k raw st m Hm) as Hset. rewrite Hacc in Hset.
  destruct Hset as (s & Hset & Ha & _).
  assert (Hbody : (if negb (is_None raw)
                   then v <- desimplify W (S n) raw;; py_setattr (VObj o) k v
                   else py_setattr (VObj o) k raw) st = (Ok tt, s)).
  { destruct (negb (is_None raw)); [| exact Hset].
    rewrite (bind_ok _ _ _ _ _ (desimplify_scalar_run W n raw st Hs)). exact Hset. }
  rewrite (try_except_ok _ _ _ _ _ Hbody) in H. inversion H; subst. exact Ha.
Qed.

(** A scalar field that the class accepts, after a population that returns. *)
Lemma populate_scalar_attr n o c (obj : dict) k raw st v st' :
  has_class st o c → NoDup obj.*1 →
  (k, raw) ∈ obj → is_scalar raw = true → mc_setattr c k raw = None →
  populate (desimplify W n) (VObj o) obj st = (Ok v, st') →
  attr st' o k = Some raw.
Proof.
  intros Hc Hnd Hin Hs Hacc H.
  pose proof (dict_get_NoDup _ _ _ Hnd Hin) as Hget.
  apply populate_steps in H as (s1 & s2 & s3 & H1 & H2 & H3 & H4).
  assert (Hnb : not_below 0 (VObj o)) by (simpl; lia).
  assert (Hpd : ∀ kv, pres 0 (populate_field (desimplify W n) (VObj o) kv)).
  { intros kv. apply pres_populate_field; [exact Hnb | apply pres_desimplify]. }
  apply list_elem_of_split in Hin as (pre & post & ->).
  rewrite for_each_app in H1. apply bind_ok_inv in H1 as ([] & sa & Hpre & H1).
  change (for_each (populate_field (desimplify W n) (VObj o)) ((k, raw) :: post) sa)
    with ((populate_field (desimplify W n) (VObj o) (k, raw) ;;;
           for_each (populate_field (desimplify W n) (VObj o)) post) sa) in H1.
  apply bind_ok_inv in H1 as ([] & sb & Hfield & Hpost).
  pose proof (run_extends _ _ _ _ (pres_for_each 0 _ pre (fun kv _ => Hpd kv)) Hpre)
    as Ea.
  pose proof (has_class_extends _ _ _ _ _ Ea Hc) as Hca.
  pose proof (populate_field_scalar _ _ _ _ _ _ _ Hca Hs Hfield Hacc) as Hattr.
  pose proof (run_extends _ _ _ _ (Hpd _) Hfield) as Eb.
  pose proof (has_class_extends _ _ _ _ _ Eb Hca) as Hcb.
  assert (Hkpost : k ∉ post.*1).
  { rewrite fmap_app, fmap_cons in Hnd. simpl in Hnd.
    apply NoDup_app in Hnd as (_ & _ & Hnd). apply NoDup_cons in Hnd as [Hnd _].
    exact Hnd. }
  destruct Hcb as (mb & Hmb & Ecb). pose proof (lookup_lt_Some _ _ _ Hmb) as Hob.
  destruct (keeps_fields W o k n (VObj o) post Hkpost _ _ _ Hob Hpost) as [K1 Ho1].
  pose proof (run_extends _ _ _ _ (pres_for_each 0 _ post (fun kv _ => Hpd kv)) Hpost)
    as E1.
  assert (Hc1 : has_class s1 o c).
  { eapply has_class_extends; [exact E1 |]. exists mb. auto. }
  (* a copy either leaves the field alone or assigns the same stored value *)
  assert (Hcopy : ∀ name s s', has_class s o c → attr s o k = Some raw →
                    copy_scoping_field (VObj o) (pre ++ (k, raw) :: post) name s
                    = (Ok tt, s') →
                    attr s' o k = Some raw ∧ has_class s' o c).
  { intros name s s' Hcs Has Hcp.
    pose proof (run_extends _ _ _ _ (pres_copy_scoping_field 0 _ _ _ Hnb) Hcp) as E.
    split; [| eapply has_class_extends; eassumption].
    destruct (decide (k = name)) as [<- | Hne].
    - unfold copy_scoping_field in Hcp. rewrite Hget in Hcp.
      apply bind_ok_inv in Hcp as (hb & s0 & Hh & Hcp).
      assert (s0 = s) by (unfold py_hasattr, gets in Hh; inversion Hh; reflexivity).
      subst s0. destruct hb; [| inversion Hcp; subst; exact Has].
      apply (py_setattr_ok _ _ _ _ _ _ Hcs) in Hcp as [_ Ha]. exact Ha.
    - destruct Hcs as (m & Hm & _).
      destruct (keeps_copy_scoping_field o k (VObj o) _ name Hne _ _ _
                  (lookup_lt_Some _ _ _ Hm) Hcp) as [K _]. congruence. }
  destruct (Hcopy "user_id" s1 s2 Hc1 (eq_trans K1 Hattr) H2) as [A2 Hc2].
  destruct (Hcopy "project_id" s2 s3 Hc2 A2 H3) as [A3 (m3 & Hm3 & _)].
  destruct (keeps_update_foreign_keys o k (VObj o) _ _ _ (lookup_lt_Some _ _ _ Hm3) H4)
    as [K4 _].
  congruence.
Qed.

(** X14.  A scalar field of the record that the class accepts is the
    attribute of the populated object, with the value it has in the record. *)
Theorem populate_assigns_scalar_field n o c (obj : dict) k raw st v st' :
  has_class st o c → NoDup obj.*1 →
  (k, raw) ∈ obj → is_scalar raw = true → mc_setattr c k raw = None →
  populate (desimplify W n) (VObj o) obj st = (Ok v, st') →
  attr st' o k = Some raw.
Proof. apply populate_scalar_attr. Qed.

End Population.

(** ** The properties above, on sample inputs *)


(** X6 on [utc_stamp]. *)
Lemma desimplify_datetime_witness :
  desimplify empty_world 1 (VDict 3 utc_stamp) init_state
  = (Ok (VDatetime 1577934245 true), init_state).
Proof.
  apply (desimplify_datetime empty_world 0 3 utc_stamp init_state). reflexivity.
Defined.

(** X7 on [private_network]. *)
Lemma desimplify_ipnetwork_witness :
  desimplify net_world 1 (VDict 3 private_network) init_state
  = (Ok (VIPNetwork "10.0.0.0/24"), init_state).
Proof.
  apply (desimplify_ipnetwork net_world 0 3 private_network init_state). reflexivity.
Defined.

(** X8 on [without_id]. *)
Lemma desimplify_without_id_witness :
  desimplify empty_world 1 (VDict 1 without_id) init_state
  = (Raise (key_error "id"), init_state).
Proof.
  apply (desimplify_without_id empty_world 0 1 without_id (VStr "instances") init_state);
    reflexivity.
Defined.

(** X9 on table [a-b], id [c], and table [a], id [b-c]. *)
Lemma separator_collision_witness :
  (desimplify empty_world 2 (VDict 2 (text_instance "a" "b-c"))
     (desimplify empty_world 2 (VDict 1 (text_instance "a-b" "c")) init_state).2).1
  = Ok (VObj 0).
Proof.
  apply (separator_collision empty_world 1 1 1 (text_instance "a-b" "c")
           2 (text_instance "a" "b-c") "a" "b" "c" init_state (VObj 0));
    vm_compute; reflexivity.
Defined.

(** X10 on the ids [7] and ["7"]. *)
Lemma integer_and_text_id_collide_witness :
  (desimplify empty_world 2 (VDict 2 (text_instance "instances" "7"))
     (desimplify empty_world 2 (VDict 1 (instance_record 7 [])) init_state).2).1
  = Ok (VObj 0).
Proof.
  apply (integer_and_text_id_collide empty_world 1 1 1 (instance_record 7 [])
           2 (text_instance "instances" "7") (VStr "instances") 7 init_state (VObj 0));
    vm_compute; reflexivity.
Defined.

(** X11 on [none_classname]: the call raises, and the key stays bound. *)
Lemma begun_reconstruction_stays_bound_witness :
  (desimplify empty_world 2 (VDict 9 none_classname) init_state).2 = init_state ∨
  ∃ v, cache (desimplify empty_world 2 (VDict 9 none_classname) init_state).2
         !! "instances-1" = Some v ∧
       ∀ n2 a2 d2, reconstructs d2 = true →
         get_key empty_world a2 d2 = inr "instances-1" →
         ∃ st2,
           desimplify empty_world (S n2) (VDict a2 d2)
             (desimplify empty_world 2 (VDict 9 none_classname) init_state).2
           = (Ok v, st2) ∧
           heap st2 = heap (desimplify empty_world 2 (VDict 9 none_classname) init_state).2 ∧
           cache st2 = cache (desimplify empty_world 2 (VDict 9 none_classname) init_state).2 ∧
           db_client_gets st2
           = db_client_gets (desimplify empty_world 2 (VDict 9 none_classname) init_state).2.
Proof.
  apply (begun_reconstruction_stays_bound empty_world 1 9 none_classname
           "instances-1" init_state
           (desimplify empty_world 2 (VDict 9 none_classname) init_state).1);
    vm_compute; reflexivity.
Defined.

(** X12 on the bare reference to instance 1, with an empty store. *)
Lemma missing_record_leaves_placeholder_witness :
  ∃ st',
    desimplify empty_world 2 (VDict 1 (instance_ref 1)) init_state
    = (Raise none_not_iterable, st') ∧
    db_client_gets st' = ([] ++ [("instances", "1")])%list ∧
    cache st' !! ("instances" +:+ "-" +:+ "1") = Some (VObj 0) ∧
    (∀ k, attr st' 0 k = None) ∧
    ∀ n', ∃ st'', desimplify empty_world (S n') (VDict 1 (instance_ref 1)) st'
                  = (Ok (VObj 0), st'') ∧
                  db_client_gets st'' = db_client_gets st'.
Proof.
  apply (missing_record_leaves_placeholder empty_world 1 1 (instance_ref 1)
           "instances" (VInt 1) (VStr "Instance") Instance init_state);
    reflexivity.
Defined.

(** X13 on [stamped_user]: the attribute [user_id] is the stored mapping. *)
Lemma populate_copies_scoping_field_witness :
  mc_setattr Instance "user_id" (VDict 3 utc_stamp) = None ∧
  attr (populate (desimplify empty_world 1) (VObj 0) stamped_user one_instance_state).2
    0 "user_id" = Some (VDict 3 utc_stamp).
Proof.
  apply (populate_copies_scoping_field empty_world 1 0 Instance stamped_user
           "user_id" (VDict 3 utc_stamp) one_instance_state (VObj 0)).
  - exists one_instance. split; reflexivity.
  - left. reflexivity.
  - simpl. auto.
  - reflexivity.
  - vm_compute. reflexivity.
Defined.

(** X14 on the field [name] of [stamped_user]. *)
Lemma populate_assigns_scalar_field_witness :
  attr (populate (desimplify empty_world 1) (VObj 0) stamped_user one_instance_state).2
    0 "name" = Some (VStr "vm").
Proof.
  apply (populate_assigns_scalar_field empty_world 1 0 Instance stamped_user
           "name" (VStr "vm") one_instance_state (VObj 0)).
  - exists one_instance. split; reflexivity.
  - apply (bool_decide_eq_true_1 (NoDup _)). vm_compute. reflexivity.
  - left.
  - reflexivity.
  - reflexivity.
  - vm_compute. reflexivity.
Defined.

(** ** Fuel *)

Lemma refines_refl {A} (m : M A) : refines m m.
Proof. intros st r st' H _. exact H. Qed.

Lemma refines_bind {A B} (m m' : M A) (f f' : A → M B) :
  refines m m' → (∀ a, refines (f a) (f' a)) → refines (bind m f) (bind m' f').
Proof.
  intros Hm Hf st r st' H Hr.
  apply bind_run in H as [(a & st1 & H1 & H2) | [(e & H1 & ->) | (_ & ->)]].
  - rewrite (bind_ok _ _ _ _ _ (Hm _ _ _ H1 ltac:(discriminate))).
    apply Hf; assumption.
  - apply bind_raise. apply Hm; [exact H1 | discriminate].
  - congruence.
Qed.

Lemma refines_try_except {A} (body body' : M A) (h : exn → M A) :
  refines body body' → refines (try_except body h) (try_except body' h).
Proof.
  intros Hb st r st' H Hr.
  apply try_except_run in H as [(e & st1 & H1 & H2) | (H1 & Hne)].
  - rewrite (try_except_raise _ _ _ _ _ (Hb _ _ _ H1 ltac:(discriminate))).
    exact H2.
  - pose proof (Hb _ _ _ H1 Hr) as H1'. unfold try_except. rewrite H1'.
    destruct r; [reflexivity | exfalso; eapply Hne; reflexivity | reflexivity].
Qed.

Lemma refines_for_each {A} (f f' : A → M unit) l :
  (∀ x, refines (f x) (f' x)) → refines (for_each f l) (for_each f' l).
Proof.
  intros H. induction l as [| x l IH]; simpl; [apply refines_refl |].
  apply refines_bind; [apply H | intros _; exact IH].
Qed.

Lemma refines_map_M {A B} (f f' : A → M B) l :
  (∀ x, refines (f x) (f' x)) → refines (map_M f l) (map_M f' l).
Proof.
  intros H. induction l as [| x l IH]; simpl; [apply refines_refl |].
  apply refines_bind; [apply H |]. intros y.
  apply refines_bind; [exact IH | intros ys; apply refines_refl].
Qed.

Section Fuel.
Context (W : World).

Lemma refines_populate_field desimp desimp' cm kv :
  (∀ x, refines (desimp x) (desimp' x)) →
  refines (populate_field desimp cm kv) (populate_field desimp' cm kv).
Proof.
  destruct kv as [key raw]. intros Hd. unfold populate_field.
  apply refines_bind; [apply Hd |]. intros sv.
  apply refines_try_except.
  destruct (negb (is_None sv)); [| apply refines_refl].
  apply refines_bind; [apply Hd | intros v; apply refines_refl].
Qed.

Lemma refines_novabase_desimplify desimp desimp' a d :
  (∀ x, refines (desimp x) (desimp' x)) →
  refines (novabase_desimplify W desimp a d) (novabase_desimplify W desimp' a d).
Proof.
  intros Hd. unfold novabase_desimplify.
  apply refines_bind; [apply refines_refl |]. intros key.
  apply refines_bind; [apply refines_refl |]. intros present.
  apply refines_bind; [| intros _; apply refines_refl].
  destruct present; [apply refines_refl |].
  apply refines_bind; [apply refines_refl |]. intros m.
  apply refines_bind; [apply refines_refl |]. intros _.
  apply refines_bind; [| intros _; apply refines_refl].
  unfold update_nova_model.
  apply refines_bind; [apply refines_refl |]. intros key'.
  apply refines_bind; [apply refines_refl |]. intros cm.
  apply refines_bind; [apply refines_refl |]. intros obj.
  unfold populate.
  apply refines_bind; [| intros _; apply refines_refl].
  apply refines_for_each. intros kv. apply refines_populate_field. exact Hd.
Qed.

Lemma refines_dispatch desimp desimp' obj :
  (∀ x, refines (desimp x) (desimp' x)) →
  refines (dispatch W desimp obj) (dispatch W desimp' obj).
Proof.
  intros Hd. unfold dispatch.
  destruct (is_dict_and_has_key obj "simplify_strategy").
  - destruct obj; try apply refines_refl.
    apply refines_bind; [apply refines_refl |]. intros s.
    apply refines_bind; [apply refines_refl |]. intros r1.
    apply refines_bind; [apply refines_refl |]. intros r2.
    destruct (str_is "novabase" s); [| apply refines_refl].
    apply refines_novabase_desimplify. exact Hd.
  - destruct obj; try apply refines_refl.
    + apply refines_bind; [| intros l; apply refines_refl].
      apply refines_map_M. exact Hd.
    + destruct (has_key "novabase_classname" kvs);
        [apply refines_novabase_desimplify; exact Hd |].
      destruct (has_key "metadata_novabase_classname" kvs);
        [apply refines_novabase_desimplify; exact Hd | apply refines_refl].
Qed.

(** One more unit of fuel changes nothing in a run that came to its end. *)
Lemma desimplify_more_fuel n : ∀ v,
  refines (desimplify W n v) (desimplify W (S n) v).
Proof.
  induction n as [| n IH]; intros v.
  - intros st r st' H Hr. inversion H; subst. congruence.
  - change (refines (result <- dispatch W (desimplify W n) v ;; final_hook result)
                    (result <- dispatch W (desimplify W (S n)) v ;; final_hook result)).
    apply refines_bind; [| intros r; apply refines_refl].
    apply refines_dispatch. exact IH.
Qed.

Lemma desimplify_fuel_le n m v :
  n ≤ m → refines (desimplify W n v) (desimplify W m v).
Proof.
  induction 1 as [| m Hle IH]; [apply refines_refl |].
  intros st r st' H Hr. apply desimplify_more_fuel; [| exact Hr].
  apply IH; assumption.
Qed.

(** X15.  [desimplify] terminates on every value, in every state and for
    every store: there is one outcome, a value or an exception, that every
    run with [enough_fuel] or more produces. *)
Theorem desimplify_terminates v st :
  ∃ r st', r ≠ OutOfFuel ∧
           ∀ n, enough_fuel W v st ≤ n → desimplify W n v st = (r, st').
Proof.
  destruct (desimplify W (enough_fuel W v st) v st) as [r st'] eqn:H.
  exists r, st'.
  assert (Hr : r ≠ OutOfFuel).
  { pose proof (desimplify_finishes W _ v st (le_n _)) as Hfin.
    unfold finishes in Hfin. rewrite H in Hfin. exact Hfin. }
  split; [exact Hr |]. intros n Hn.
  eapply desimplify_fuel_le; eassumption.
Qed.

End Fuel.

(** ** The lazy reference *)

Section LazyRuns.
Context (W : World).

(** A resolution of an unresolved reference that returns: the record is in
    the store and carries no strategy tag, the object is the one allocated by
    [spawn_empty_model], and its population returned. *)
Lemma get_complex_ref_unresolved_ok n r st v st1 :
  lazy_cache st !! lazy_get_key W r = None →
  get_complex_ref W n r st = (Ok v, st1) →
  ∃ a d c x,
    riak_data W !! (base r, py_str W (id r)) = Some (a, d) ∧
    has_key "simplify_strategy" d = false ∧
    v = VObj (length (heap st)) ∧
    populate (desimplify W n) (VObj (length (heap st))) d (lazy_spawned W r c st)
    = (Ok x, st1).
Proof.
  intros Hnone H. unfold get_complex_ref in H.
  apply bind_ok_inv in H as (present & s0 & Hp & H).
  unfold lazy_cache_has_key, gets in Hp. inversion Hp; subst s0 present. clear Hp.
  rewrite bool_decide_eq_false_2 in H by (rewrite Hnone; intros [? ?]; congruence).
  apply bind_ok_inv in H as ([] & s1 & Hl & H).
  assert (Hv : st1 = s1 ∧ lazy_cache s1 !! lazy_get_key W r = Some v).
  { unfold lazy_cache_lookup in H.
    destruct (lazy_cache s1 !! lazy_get_key W r) eqn:E; inversion H; subst; auto. }
  destruct Hv as [-> Hv]. clear H.
  apply bind_ok_inv in Hl as (y & s2 & Hl & Hret).
  inversion Hret; subst s2. clear Hret.
  unfold load in Hl.
  apply bind_ok_inv in Hl as ([] & sl & Hlog & Hl).
  unfold modify in Hlog. inversion Hlog; subst sl. clear Hlog.
  apply bind_ok_inv in Hl as (obj & s3 & Ho & Hl).
  unfold ret in Ho. inversion Ho; subst obj s3. clear Ho.
  apply bind_ok_inv in Hl as (sp & s4 & Hsp & Hl).
  apply bind_ok_inv in Hl as (up & s5 & Hup & Hl).
  assert (s5 = s1) as ->.
  { unfold lazy_cache_lookup in Hl.
    destruct (lazy_cache s5 !! lazy_get_key W r); inversion Hl; reflexivity. }
  clear Hl.
  destruct (riak_data W !! (base r, py_str W (id r))) as [[a d] |] eqn:Hrec;
    [| discriminate].
  exists a, d.
  set (sl := log_dbClient_get (base r) (py_str W (id r)) st) in *.
  (* spawn_empty_model *)
  unfold lazy_spawn_empty_model in Hsp.
  apply bind_ok_inv in Hsp as (mcn & s6 & Hmcn & Hsp).
  assert (s6 = sl) as ->.
  { unfold read_model_class_name in Hmcn.
    destruct (dict_get "novabase_classname" d);
      [| destruct (dict_get "metadata_novabase_classname" d)];
      inversion Hmcn; reflexivity. }
  unfold lazy_update_nova_model in Hup.
  apply bind_ok_inv in Hup as (cm & s7 & Hcm & Hup).
  assert (Hcm' : s7 = s4 ∧ lazy_cache s4 !! lazy_get_key W r = Some cm).
  { unfold lazy_cache_lookup in Hcm.
    destruct (lazy_cache s4 !! lazy_get_key W r) eqn:E; inversion Hcm; subst; auto. }
  destruct Hcm' as [-> Hcm']. clear Hcm.
  destruct (is_None mcn).
  { inversion Hsp; subst. simpl in Hcm'. congruence. }
  apply bind_ok_inv in Hsp as (mo & s8 & Hmo & Hsp).
  unfold instantiate in Hmo.
  destruct (get_model_class_from_name W mcn) as [c |]; [| discriminate].
  unfold new_model in Hmo. inversion Hmo; subst mo s8. clear Hmo.
  unfold bind, lazy_cache_has_key, gets, lazy_cache_store, modify,
    lazy_cache_lookup, ret in Hsp. simpl in Hsp.
  rewrite Hnone in Hsp.
  rewrite bool_decide_eq_false_2 in Hsp by (intros [? ?]; congruence).
  simpl in Hsp. rewrite lookup_insert_eq in Hsp. inversion Hsp; subst sp s4.
  clear Hsp. simpl in Hcm'. rewrite lookup_insert_eq in Hcm'.
  inversion Hcm'; subst cm. clear Hcm'.
  apply bind_ok_inv in Hup as (obj' & s9 & Hf & Hup).
  unfold lazy_fields_to_populate in Hf.
  destruct (has_key "simplify_strategy" d) eqn:Htag; [discriminate |].
  inversion Hf; subst obj' s9. clear Hf.
  exists c, up. split; [reflexivity |]. split; [reflexivity |].
  split; [| exact Hup].
  assert (E : extends 0 (lazy_spawned W r c st) s1).
  { eapply run_extends; [| exact Hup].
    apply pres_populate; [simpl; lia |]. intros x _. apply pres_desimplify. }
  assert (Hm : lazy_cache (lazy_spawned W r c st) !! lazy_get_key W r
               = Some (VObj (length (heap st)))).
  { simpl. apply lookup_insert_eq. }
  pose proof (lookup_weaken _ _ _ _ Hm (ext_lazy_cache _ _ _ E)). congruence.
Qed.

(** X16.  [__nonzero__] of an unresolved reference never answers [False]:
    it answers [True] or the resolution raises, since a resolution that
    returns has memoized a model object, and model objects are true
    ([py_truth]). *)
Theorem lazy_nonzero_is_true n r st b st1 :
  lazy_cache st !! lazy_get_key W r = None →
  lazy_nonzero W n r st = (Ok b, st1) → b = true.
Proof.
  intros Hnone H. unfold lazy_nonzero in H.
  apply bind_ok_inv in H as (v & s & Hg & H).
  destruct (get_complex_ref_unresolved_ok _ _ _ _ _ Hnone Hg)
    as (a & d & c & x & _ & _ & -> & _).
  inversion H. reflexivity.
Qed.

(** An object that no key of the cache is bound to stays so along the writes
    of the engine, once it is in the heap. *)
Lemma rtc_not_bound o st st' :
  rtc engine_step st st' →
  o < length (heap st) → (∀ k, cache st !! k ≠ Some (VObj o)) →
  o < length (heap st') ∧ ∀ k, cache st' !! k ≠ Some (VObj o).
Proof.
  induction 1 as [| x y z Hs _ IH]; [auto |]. intros Ho Hnb.
  apply IH; clear IH.
  - destruct Hs as [st key m st2 fetch Hc Hsp Hf | st a m key v Hm Hv | st a m Hm Hn];
      simpl.
    + destruct (fetched_inv fetch st2) as (_ & -> & _).
      destruct (spawned_inv _ _ _ _ Hsp) as (_ & [[_ ->] | (c & _ & ->)] & _);
        [exact Ho | rewrite length_app; lia].
    + rewrite length_insert. exact Ho.
    + exact Ho.
  - destruct Hs as [st key m st2 fetch Hc Hsp Hf | st a m key v Hm Hv | st a m Hm Hn];
      simpl; try exact Hnb.
    destruct (fetched_inv fetch st2) as (-> & _).
    destruct (spawned_inv _ _ _ _ Hsp) as (-> & Hm & _).
    intros k Hk. apply lookup_insert_Some in Hk as [[_ E] | [_ Hk]];
      [| eapply Hnb; exact Hk].
    destruct Hm as [[-> _] | (c & -> & _)]; [discriminate |].
    inversion E. lia.
Qed.

(** X17.  The object a lazy reference resolves to is bound to no key of the
    engine's identity cache, and no object mapping that the engine
    desimplifies afterwards is rehydrated to it. *)
Theorem lazy_object_not_in_identity_cache n r st v st1 :
  cache_live st →
  lazy_cache st !! lazy_get_key W r = None →
  get_complex_ref W n r st = (Ok v, st1) →
  (∀ k, cache st1 !! k ≠ Some v) ∧
  ∀ n2 a2 d2 v2 st2,
    reconstructs d2 = true →
    desimplify W n2 (VDict a2 d2) st1 = (Ok v2, st2) → v2 ≠ v.
Proof.
  intros Hlive Hnone H.
  destruct (get_complex_ref_unresolved_ok _ _ _ _ _ Hnone H)
    as (a & d & c & x & _ & _ & -> & Hp).
  assert (Hw : rtc engine_step (lazy_spawned W r c st) st1).
  { eapply walks_populate; [| exact Hp]. intros y. apply walks_desimplify. }
  assert (H1 : length (heap st) < length (heap st1) ∧
               ∀ k, cache st1 !! k ≠ Some (VObj (length (heap st)))).
  { eapply rtc_not_bound; [exact Hw | |].
    - simpl. rewrite length_app. simpl. lia.
    - simpl. intros k Hk. destruct (Hlive k _ Hk) as [E | (a' & E & Ha)];
        [discriminate | inversion E; lia]. }
  destruct H1 as [Ho Hnb]. split; [exact Hnb |].
  intros n2 a2 d2 v2 st2 Hr H2 ->.
  destruct n2 as [| n2]; [discriminate |].
  pose proof (walks_desimplify W _ _ _ _ _ H2) as Hw2.
  destruct (rtc_not_bound _ _ _ Hw2 Ho Hnb) as [_ Hnb2].
  rewrite (desimplify_reconstructs W _ _ _ _ Hr) in H2.
  destruct (get_key W a2 d2) as [e | key] eqn:Hk.
  - unfold reconstruction, novabase_desimplify in H2. rewrite Hk in H2. discriminate.
  - eapply Hnb2. eapply reconstruction_ok; eassumption.
Qed.

(** X18.  A scalar field of the stored record that the class accepts is the
    attribute of the object the reference resolves to. *)
Theorem lazy_reference_round_trip n r a d k raw st o st1 m :
  lazy_cache st !! lazy_get_key W r = None →
  riak_data W !! (base r, py_str W (id r)) = Some (a, d) →
  NoDup d.*1 → (k, raw) ∈ d → is_scalar raw = true →
  get_complex_ref W n r st = (Ok (VObj o), st1) →
  heap st1 !! o = Some m → mc_setattr (m_class m) k raw = None →
  m_attrs m !! k = Some raw.
Proof.
  intros Hnone Hrec Hnd Hin Hs H Hm Hacc.
  destruct (get_complex_ref_unresolved_ok _ _ _ _ _ Hnone H)
    as (a' & d' & c & x & Hrec' & _ & Eo & Hp).
  rewrite Hrec in Hrec'. inversion Hrec'; subst a' d'. inversion Eo; subst o.
  assert (Hc : has_class (lazy_spawned W r c st) (length (heap st)) c).
  { exists {| m_class := c; m_attrs := ∅ |}. split; [| reflexivity]. simpl.
    rewrite lookup_app_r by lia. rewrite Nat.sub_diag. reflexivity. }
  assert (E : extends 0 (lazy_spawned W r c st) st1).
  { eapply run_extends; [| exact Hp].
    apply pres_populate; [simpl; lia |]. intros y _. apply pres_desimplify. }
  destruct (has_class_extends _ _ _ _ _ E Hc) as (m' & Hm' & Ec).
  rewrite Hm in Hm'. inversion Hm'; subst m'. rewrite Ec in Hacc.
  pose proof (populate_scalar_attr W _ _ _ _ _ _ _ _ _ Hc Hnd Hin Hs Hacc Hp) as Ha.
  unfold attr in Ha. rewrite Hm in Ha. exact Ha.
Qed.

(** X19.  [load] asks the store every time it is called, also on a resolved
    reference, and never replaces a memoized object. *)
Theorem load_always_fetches n r st :
  dbClient_gets (load W n r st).2
  = (dbClient_gets st ++ [(base r, py_str W (id r))])%list ∧
  ∀ v, lazy_cache st !! lazy_get_key W r = Some v →
       lazy_cache (load W n r st).2 !! lazy_get_key W r = Some v.
Proof.
  destruct (load W n r st) as [res s1] eqn:H. simpl.
  assert (E : extends 0 (log_dbClient_get (base r) (py_str W (id r)) st) s1).
  { unfold load in H.
    apply bind_run in H as [([] & sl & Hlog & H) | [(e & Hlog & _) | (Hlog & _)]];
      try (unfold modify in Hlog; discriminate).
    unfold modify in Hlog. inversion Hlog; subst sl. clear Hlog.
    revert H. apply pres_bind; [auto with pres | | simpl; lia].
    intros obj. apply pres_bind; [apply pres_lazy_spawn_empty_model |].
    intros _. apply pres_bind; [apply pres_lazy_update_nova_model |].
    intros _. apply pres_lazy_cache_lookup. }
  split; [rewrite (ext_dbClient _ _ _ E); reflexivity |].
  intros v Hv. eapply lookup_weaken; [| apply (ext_lazy_cache _ _ _ E)]. exact Hv.
Qed.

(** X20.  A resolution that finds no record raises [TypeError] after its
    fetch and memoizes nothing: the next resolution asks the store again. *)
Theorem unresolvable_reference_memoizes_nothing n r st :
  riak_data W !! (base r, py_str W (id r)) = None →
  lazy_cache st !! lazy_get_key W r = None →
  get_complex_ref W n r st
  = (Raise none_not_container, log_dbClient_get (base r) (py_str W (id r)) st) ∧
  lazy_cache (log_dbClient_get (base r) (py_str W (id r)) st) !! lazy_get_key W r
  = None.
Proof.
  intros Hrec Hnone. split; [| exact Hnone].
  unfold get_complex_ref, load, lazy_spawn_empty_model, bind, lazy_cache_has_key,
    gets, modify, ret, raise. simpl.
  rewrite Hnone. rewrite bool_decide_eq_false_2 by (intros [? ?]; congruence).
  rewrite Hrec. reflexivity.
Qed.

End LazyRuns.

(** ** The module functions of [desimplifier.py] *)

Lemma split_underscore_nonempty word : split_underscore word ≠ [].
Proof.
  destruct word as [| c r]; simpl; [discriminate |].
  destruct (Ascii.eqb c "_"); [discriminate |].
  destruct (split_underscore r); discriminate.
Qed.

Lemma split_underscore_app a b :
  split_underscore (a +:+ "_" +:+ b)
  = (split_underscore a ++ split_underscore b)%list.
Proof.
  induction a as [| c a IH].
  - reflexivity.
  - change (String c a +:+ "_" +:+ b) with (String c (a +:+ "_" +:+ b)).
    simpl. rewrite IH. destruct (Ascii.eqb c "_"); [reflexivity |].
    pose proof (split_underscore_nonempty a) as Hne.
    destruct (split_underscore a) as [| p ps]; [congruence | reflexivity].
Qed.

Lemma join_strings_app l1 l2 :
  join_strings (l1 ++ l2) = join_strings l1 +:+ join_strings l2.
Proof.
  induction l1 as [| x l1 IH]; [reflexivity |].
  change (join_strings ((x :: l1) ++ l2)) with (x +:+ join_strings (l1 ++ l2)).
  change (join_strings (x :: l1)) with (x +:+ join_strings l1).
  rewrite IH. symmetry. apply append_assoc.
Qed.

(** X21.  [convert_to_camelcase] works piece by piece: the conversion of two
    words joined by an underscore is the conversion of the first followed by
    the conversion of the second. *)
Theorem convert_to_camelcase_joined a b :
  convert_to_camelcase (a +:+ "_" +:+ b)
  = convert_to_camelcase a +:+ convert_to_camelcase b.
Proof.
  unfold convert_to_camelcase. rewrite split_underscore_app, map_app.
  apply join_strings_app.
Qed.

Lemma split_underscore_plain word :
  occurs "_" word = false → split_underscore word = [word].
Proof.
  induction word as [| c r IH]; [reflexivity |].
  simpl. destruct (Ascii.eqb c "_"); [discriminate |]. simpl.
  intros H. rewrite (IH H). reflexivity.
Qed.

Lemma append_empty_r s : s +:+ "" = s.
Proof.
  induction s as [| c s IH]; [reflexivity |].
  change (String c (s +:+ "") = String c s). rewrite IH. reflexivity.
Qed.

(** X22.  A word without underscore is capitalized, and the empty word
    becomes one underscore: the result is never empty. *)
Theorem convert_to_camelcase_plain word :
  occurs "_" word = false →
  convert_to_camelcase word = match word with "" => "_" | _ => capitalize word end.
Proof.
  intros H. unfold convert_to_camelcase. rewrite (split_underscore_plain _ H).
  simpl. rewrite append_empty_r. destruct word; reflexivity.
Qed.

(** [find_table_name] reads the first clause only, at every depth. *)
Lemma find_table_name_first_clause :
  ∀ model, find_table_name (first_clause_only model) = find_table_name model.
Proof.
  fix IH 1. intros [tn tb cl cs]. simpl.
  destruct tn; [reflexivity |].
  destruct tb as [[|] |]; try reflexivity.
  destruct cl as [[|] |]; try reflexivity.
  destruct cs as [[| clause rest] |]; try reflexivity.
  apply IH.
Qed.

(** X23.  [find_table_name] decides on the first clause alone, at every
    depth: the clauses after the first never change what it returns, and a
    candidate whose first clause has no name yields ["none"] whatever the
    other clauses are. *)
Theorem find_table_name_ignores_later_clauses model :
  find_table_name model = find_table_name (first_clause_only model).
Proof. symmetry. apply find_table_name_first_clause. Qed.

(** A table name in the second clause of a join is not found. *)
Lemma find_table_name_sample_join : find_table_name sample_join = inr "none".
Proof. reflexivity. Qed.

(** ** Further sample inputs *)

(** X22 on the table name of the sample world. *)
Lemma convert_to_camelcase_plain_witness :
  convert_to_camelcase "instances" = "Instances".
Proof. apply (convert_to_camelcase_plain "instances"). reflexivity. Defined.

(** X16 on the reference to instance 1 of [stored_world]. *)
Lemma lazy_nonzero_is_true_witness :
  (lazy_nonzero stored_world 2 lazy_one init_state).1 = Ok true ∧ true = true.
Proof.
  split; [vm_compute; reflexivity |].
  apply (lazy_nonzero_is_true stored_world 2 lazy_one init_state true
           (lazy_nonzero stored_world 2 lazy_one init_state).2);
    vm_compute; reflexivity.
Defined.

(** X17 on the same reference, from a fresh engine. *)
Lemma lazy_object_not_in_identity_cache_witness :
  (∀ k, cache (get_complex_ref stored_world 2 lazy_one init_state).2 !! k
        ≠ Some (VObj 0)) ∧
  ∀ n2 a2 d2 v2 st2,
    reconstructs d2 = true →
    desimplify stored_world n2 (VDict a2 d2)
      (get_complex_ref stored_world 2 lazy_one init_state).2 = (Ok v2, st2) →
    v2 ≠ VObj 0.
Proof.
  apply (lazy_object_not_in_identity_cache stored_world 2 lazy_one init_state
           (VObj 0) (get_complex_ref stored_world 2 lazy_one init_state).2).
  - exact cache_live_init.
  - reflexivity.
  - vm_compute. reflexivity.
Defined.

(** X18 on the field [name] of the stored record of instance 1. *)
Lemma lazy_reference_round_trip_witness :
  m_attrs (default one_instance
             (heap (get_complex_ref stored_world 2 lazy_one init_state).2 !! 0))
    !! "name" = Some (VStr "vm").
Proof.
  apply (lazy_reference_round_trip stored_world 2 lazy_one 7%N
           (instance_record 1 [("name", VStr "vm")]) "name" (VStr "vm")
           init_state 0 (get_complex_ref stored_world 2 lazy_one init_state).2).
  - reflexivity.
  - vm_compute. reflexivity.
  - apply (bool_decide_eq_true_1 (NoDup _)). vm_compute. reflexivity.
  - unfold instance_record, instance_in. simpl. rewrite !elem_of_cons. auto 10.
  - reflexivity.
  - vm_compute. reflexivity.
  - vm_compute. reflexivity.
  - vm_compute. reflexivity.
Defined.

(** X20 on the reference to instance 1, with an empty store. *)
Lemma unresolvable_reference_memoizes_nothing_witness :
  get_complex_ref empty_world 2 lazy_one init_state
  = (Raise none_not_container, log_dbClient_get "instances" "1" init_state) ∧
  lazy_cache (log_dbClient_get "instances" "1" init_state) !! "Instance_1" = None.
Proof.
  apply (unresolvable_reference_memoizes_nothing empty_world 2 lazy_one init_state);
    reflexivity.
Defined.
